(** * vulnix: derivation names, CVE patch scanning, the NVD store and its sync

    A shallow embedding of [vulnix/derivation.py] and [vulnix/nvd.py].
    Python [str] values are modelled as [string] (ASCII characters);
    the character classes used by the regular expressions ([\S], [\d])
    and the case mappings ([str.lower], [str.upper], [re.IGNORECASE]) are
    written out on ASCII. *)

From Stdlib Require Import Ascii String ZArith Lia.
From stdpp Require Import base gmap strings list pretty.

Open Scope Z_scope.

(* ------------------------------------------------------------------ *)
(** ** Characters *)

Definition ascii_between (lo hi : nat) (c : ascii) : bool :=
  (Nat.leb lo (nat_of_ascii c) && Nat.leb (nat_of_ascii c) hi)%bool.

(** [\d] on ASCII. *)
Definition is_digit (c : ascii) : bool := ascii_between 48 57 c.

(** [\s] on ASCII: the characters for which [str.isspace] holds
    (tab .. carriage return, the separators 0x1c .. 0x1f, space). *)
Definition is_space (c : ascii) : bool :=
  (ascii_between 9 13 c || ascii_between 28 31 c || Nat.eqb (nat_of_ascii c) 32)%bool.

Definition ascii_lower (c : ascii) : ascii :=
  if ascii_between 65 90 c then ascii_of_nat (nat_of_ascii c + 32) else c.

Definition ascii_upper (c : ascii) : ascii :=
  if ascii_between 97 122 c then ascii_of_nat (nat_of_ascii c - 32) else c.

(* ------------------------------------------------------------------ *)
(** ** String methods *)

(** [str.lower] *)
Fixpoint str_lower (s : string) : string :=
  match s with
  | EmptyString => EmptyString
  | String c s' => String (ascii_lower c) (str_lower s')
  end.

(** [str.upper] *)
Fixpoint str_upper (s : string) : string :=
  match s with
  | EmptyString => EmptyString
  | String c s' => String (ascii_upper c) (str_upper s')
  end.

(** [s.endswith(suf)] *)
Definition ends_with (suf s : string) : bool :=
  let n := String.length s in
  let k := String.length suf in
  (Nat.leb k n && String.eqb (substring (n - k) k s) suf)%bool.

(** [s.replace(a, b)] for one-character [a] and [b]. *)
Fixpoint str_replace_char (a b : ascii) (s : string) : string :=
  match s with
  | EmptyString => EmptyString
  | String c s' =>
      String (if Ascii.eqb c a then b else c) (str_replace_char a b s')
  end.

(** Python's [<] on [str]: lexicographic on code points. *)
Fixpoint str_lt (s t : string) : bool :=
  match s, t with
  | EmptyString, EmptyString => false
  | EmptyString, String _ _ => true
  | String _ _, EmptyString => false
  | String a s', String b t' =>
      if Nat.ltb (nat_of_ascii a) (nat_of_ascii b) then true
      else if Nat.ltb (nat_of_ascii b) (nat_of_ascii a) then false
      else str_lt s' t'
  end.

(** Python's [>] on [str]. *)
Definition str_gt (s t : string) : bool := str_lt t s.

(* ------------------------------------------------------------------ *)
(** ** [split_name] and the pattern [R_VERSION]

    [R_VERSION] is: start anchor, group 1 = lazy [\S+?], a dash,
    group 2 = a digit followed by greedy non-space characters, end anchor. *)

(** Greedy [\S*]: the longest leading run of non-space characters and
    the rest. *)
Fixpoint span_nonspace (s : string) : string * string :=
  match s with
  | EmptyString => (EmptyString, EmptyString)
  | String c s' =>
      if is_space c then (EmptyString, s)
      else let (r, t) := span_nonspace s' in (String c r, t)
  end.

(** [$] without MULTILINE: the end of the string, or just before a
    newline that ends the string. *)
Definition dollar_ok (t : string) : bool :=
  match t with
  | EmptyString => true
  | String c EmptyString => Ascii.eqb c "010"%char
  | _ => false
  end.

(** The pattern after group 1 (dash, group 2, end anchor), tried at one position;
    returns group 2.  Backtracking into [\S*] never helps, since [$]
    cannot follow a non-space character. *)
Definition version_tail (s : string) : option string :=
  match s with
  | String c (String d r) =>
      if (Ascii.eqb c "-" && is_digit d)%bool then
        let (r1, t) := span_nonspace r in
        if dollar_ok t then Some (String d r1) else None
      else None
  | _ => None
  end.

(** [R_VERSION.match]: the lazy [\S+?] takes one character, then tries
    the rest of the pattern, and only then takes one more character. *)
Fixpoint r_version_match (s : string) : option (string * string) :=
  match s with
  | EmptyString => None
  | String c s' =>
      if is_space c then None
      else match version_tail s' with
           | Some v => Some (String c EmptyString, v)
           | None =>
               match r_version_match s' with
               | Some (g, v) => Some (String c g, v)
               | None => None
               end
           end
  end.

(** The first two lines of [split_name]: lower-case, drop a [.drv]. *)
Definition lower_strip_drv (fullname : string) : string :=
  let fullname := str_lower fullname in
  if ends_with ".drv" fullname
  then substring 0 (String.length fullname - 4) fullname
  else fullname.

Definition split_name (fullname : string) : string * option string :=
  let fullname := lower_strip_drv fullname in
  match r_version_match fullname with
  | Some (g1, g2) => (g1, Some g2)
  | None => (fullname, None)
  end.

(* ------------------------------------------------------------------ *)
(** ** [R_CVE = CVE-\d{4}-\d+] with [re.IGNORECASE], and [finditer] *)

(** Greedy [\d+] / [\d*]: leading digits and the rest. *)
Fixpoint digit_run (s : string) : string * string :=
  match s with
  | EmptyString => (EmptyString, EmptyString)
  | String c s' =>
      if is_digit c then let (ds, r) := digit_run s' in (String c ds, r)
      else (EmptyString, s)
  end.

Definition ci_eq (c u : ascii) : bool := Ascii.eqb (ascii_upper c) u.

(** [R_CVE] tried at the start of [s]: the matched text and the rest. *)
Definition r_cve_match (s : string) : option (string * string) :=
  match s with
  | String c1 (String c2 (String c3 (String c4
      (String d1 (String d2 (String d3 (String d4 (String c5 r)))))))) =>
      if (ci_eq c1 "C" && ci_eq c2 "V" && ci_eq c3 "E" && Ascii.eqb c4 "-"
          && is_digit d1 && is_digit d2 && is_digit d3 && is_digit d4
          && Ascii.eqb c5 "-")%bool then
        match digit_run r with
        | (EmptyString, _) => None
        | (ds, rest) =>
            Some (String c1 (String c2 (String c3 (String c4
                    (String d1 (String d2 (String d3 (String d4
                      (String c5 ds)))))))), rest)
        end
      else None
  | _ => None
  end.

(** [finditer]: scan left to right; after a match resume at its end,
    otherwise advance by one character.  [fuel] bounds the number of
    steps; [length s] steps always suffice. *)
Fixpoint cve_scan (fuel : nat) (s : string) : list string :=
  match fuel with
  | O => []
  | S f =>
      match s with
      | EmptyString => []
      | String _ s' =>
          match r_cve_match s with
          | Some (m, rest) => m :: cve_scan f rest
          | None => cve_scan f s'
          end
      end
  end.

Definition r_cve_finditer (s : string) : list string :=
  cve_scan (String.length s) s.

(* ------------------------------------------------------------------ *)
(** ** [Derive] *)

Record Derive := mkDerive {
  name : string;
  pname : string;
  version : string;
  patches : string;
}.

(** [SkipDrv] is raised, or the object is built. *)
Inductive init_result :=
| SkipDrv
| Init (d : Derive).

Definition skip_extensions : list string :=
  [".tar.gz"; ".tar.bz2"; ".tar.xz"; ".zip"; ".patch"; ".diff"].

(** [Derive.__init__], from the point where [self.name] and the patches
    text (the [patches] argument, else the [patches] environment entry,
    else the empty string) are known. *)
Definition derive_init (nm : string) (patch_text : string) : init_result :=
  if existsb (fun e => ends_with e nm) skip_extensions then SkipDrv
  else
    match split_name nm with
    | (_, None) => SkipDrv
    | (_, Some EmptyString) => SkipDrv
    | (pn, Some v) => Init (mkDerive nm pn v patch_text)
    end.

(** [Derive.applied_patches] (a Python set, kept as a list). *)
Definition applied_patches (d : Derive) : list string :=
  map str_upper (r_cve_finditer (patches d)).

(** [Derive.product_candidates] *)
Definition product_candidates (d : Derive) : list string :=
  let alternative := str_replace_char "-" "_" (pname d) in
  pname d :: (if String.eqb alternative (pname d) then [] else [alternative]).

Section Ordering.
(** [utils.compare_versions], which returns -1, 0 or 1. *)
Variable compare_versions : string -> string -> Z.

(** [Derive.__lt__] *)
Definition derive_lt (self other : Derive) : bool :=
  if str_lt (pname self) (pname other) then true
  else if str_gt (pname self) (pname other) then false
  else Z.eqb (compare_versions (version self) (version other)) (-1).

(** [Derive.__gt__] *)
Definition derive_gt (self other : Derive) : bool :=
  if str_gt (pname self) (pname other) then true
  else if str_lt (pname self) (pname other) then true
  else Z.eqb (compare_versions (version self) (version other)) 1.
End Ordering.

(* ------------------------------------------------------------------ *)
(** ** Vulnerability records *)

(** Modelled from the spec: [vulnix/vulnerability.py] (the
    [Vulnerability] class and its nodes) is not part of the sources.  A
    node is an AffectedProductNode: a product name and a version
    predicate, either an exact version or a range whose optional start
    and end bounds are each inclusive ([true]) or exclusive ([false]). *)
Inductive VersionPredicate :=
| VExact (v : string)
| VRange (start : option (bool * string)) (stop : option (bool * string)).

Record Node := mkNode { product : string; vpred : VersionPredicate }.

Record Vulnerability := mkVuln { cve_id : string; nodes : list Node }.

Global Instance VersionPredicate_eq_dec : EqDecision VersionPredicate.
Proof. solve_decision. Defined.
Global Instance Node_eq_dec : EqDecision Node.
Proof. solve_decision. Defined.
Global Instance Vulnerability_eq_dec : EqDecision Vulnerability.
Proof. solve_decision. Defined.

(** Adding to a Python [set] kept as a duplicate-free list. *)
Definition set_add (v : Vulnerability) (s : list Vulnerability) : list Vulnerability :=
  if decide (v ∈ s) then s else s ++ [v].

Section Matching.
(** [utils.compare_versions], which returns -1, 0 or 1. *)
Variable compare_versions : string -> string -> Z.

(** Modelled from the spec: the version predicate of a node. *)
Definition vpred_holds (p : VersionPredicate) (v : string) : bool :=
  match p with
  | VExact e => Z.eqb (compare_versions v e) 0
  | VRange start stop =>
      (match start with
       | None => true
       | Some (true, s) => Z.leb 0 (compare_versions v s)
       | Some (false, s) => Z.ltb 0 (compare_versions v s)
       end &&
       match stop with
       | None => true
       | Some (true, e) => Z.leb (compare_versions v e) 0
       | Some (false, e) => Z.ltb (compare_versions v e) 0
       end)%bool
  end.

(** Modelled from the spec: [Vulnerability.match(pname, version)] holds
    when some node names the product and its predicate holds. *)
Definition vuln_match (vuln : Vulnerability) (pn v : string) : bool :=
  existsb (fun n => (String.eqb (product n) pn && vpred_holds (vpred n) v)%bool)
    (nodes vuln).
End Matching.

(* ------------------------------------------------------------------ *)
(** ** The store: [advisory], [by_product] and [meta] *)

(** [Meta]: [last_update] in seconds since 1970-01-01 (the class
    default is that instant); [etag] is [None] until the first ETag is
    stored. *)
Record Meta := mkMeta {
  pack_counter : Z;
  last_update : Z;
  etag : option (gmap string string);
}.

Definition default_meta : Meta := mkMeta 0 0 None.

(** The ZODB root.  The OOBTrees become [gmap]s; iteration over
    [advisory.values()] follows [map_to_list] instead of key order. *)
Record Store := mkStore {
  advisory : gmap string Vulnerability;
  by_product_idx : gmap string (list Vulnerability);
  meta : Meta;
}.

Definition set_meta (st : Store) (m : Meta) : Store :=
  mkStore (advisory st) (by_product_idx st) m.

(** [NVD.add]: [advisories[cve_id] = adv] for each item of the archive. *)
Definition add (archive : gmap string Vulnerability) (st : Store) : Store :=
  mkStore
    (fold_left (fun advs '(k, adv) => <[k := adv]> advs) (map_to_list archive) (advisory st))
    (by_product_idx st) (meta st).

(** One vulnerability's contribution to [NVD.reindex]. *)
Definition index_vuln (bp : gmap string (list Vulnerability)) (vuln : Vulnerability)
  : gmap string (list Vulnerability) :=
  fold_left (fun bp prod => <[prod := default [] (bp !! prod) ++ [vuln]]> bp)
    (map product (nodes vuln)) bp.

Definition build_index (vulns : list Vulnerability) : gmap string (list Vulnerability) :=
  fold_left index_vuln vulns ∅.

(** [NVD.reindex] *)
Definition reindex (st : Store) : Store :=
  mkStore (advisory st) (build_index (map snd (map_to_list (advisory st)))) (meta st).

(** [NVD.by_id] (a missing key raises [KeyError]). *)
Definition by_id (st : Store) (id : string) : option Vulnerability := advisory st !! id.

(** [NVD.by_product] *)
Definition by_product (st : Store) (prod : string) : list Vulnerability :=
  match by_product_idx st !! prod with
  | Some l => l
  | None => []
  end.

Section Affected.
Variable compare_versions : string -> string -> Z.

(** [NVD.affected] *)
Definition affected (st : Store) (pn v : string) : list Vulnerability :=
  fold_left (fun res vuln =>
               if vuln_match compare_versions vuln pn v then set_add vuln res else res)
    (by_product st pn) [].

(** The loop body of [Derive.check] for one product candidate. *)
Definition check_candidate (patched : list string) (st : Store) (pn v : string)
    (affected_by : list Vulnerability) : list Vulnerability :=
  fold_left (fun acc vuln =>
               if decide (cve_id vuln ∈ patched) then acc else set_add vuln acc)
    (affected st pn v) affected_by.

Fixpoint check_loop (patched : list string) (st : Store) (v : string)
    (cands : list string) (affected_by : list Vulnerability) : list Vulnerability :=
  match cands with
  | [] => affected_by
  | pn :: rest =>
      let affected_by := check_candidate patched st pn v affected_by in
      match affected_by with
      | _ :: _ => affected_by
      | [] => check_loop patched st v rest affected_by
      end
  end.

(** [Derive.check] *)
Definition check (d : Derive) (st : Store) : list Vulnerability :=
  check_loop (applied_patches d) st (version d) (product_candidates d) [].
End Affected.

(* ------------------------------------------------------------------ *)
(** ** [Meta] methods *)

(** [Meta.should_pack] *)
Definition should_pack (m : Meta) : bool * Meta :=
  let c := pack_counter m + 1 in
  if Z.ltb 25 c then (true, mkMeta 0 (last_update m) (etag m))
  else (false, mkMeta c (last_update m) (etag m)).

(** [Meta.headers_for]: the [If-None-Match] value to send, if any. *)
Definition headers_for (m : Meta) (url : string) : option string :=
  match etag m with
  | Some e => e !! url
  | None => None
  end.

(* ------------------------------------------------------------------ *)
(** ** Feed segments and HTTP *)

(** An archive name: a year or ["modified"]. *)
Inductive segment :=
| SegYear (y : Z)
| SegModified.

Definition segment_name (a : segment) : string :=
  match a with
  | SegYear y => pretty y
  | SegModified => "modified"
  end.

(** [Archive.download_uri] *)
Definition download_uri (a : segment) : string :=
  ("nvdcve-1.1-" +:+ segment_name a +:+ ".json.gz")%string.

(** An item of [CVE_Items] as [Vulnerability.parse] sees it: it parses,
    it raises [ValueError] (caught and skipped by [Archive.parse]), or it
    raises another exception (which escapes). *)
Inductive feed_item :=
| FeedVuln (v : Vulnerability)
| FeedValueError
| FeedOtherError.

(** A response of [requests.get]: the status, the body and the [ETag]
    header.  The body is [None] when [gzip.decompress], [json.loads] or
    the lookup [raw['CVE_Items']] raises, else the list of items. *)
Record Response := mkResponse {
  status_code : Z;
  body : option (list feed_item);
  resp_etag : option string;
}.

Inductive fetch_outcome :=
| Responded (r : Response)
| ConnectionFailed.

(** The mirror as seen by [requests.get(url, headers=...)]: the outcome
    for a URL and an optional [If-None-Match] value. *)
Definition server := string -> option string -> fetch_outcome.

(** [Meta.update_headers_for] *)
Definition update_headers_for (m : Meta) (url : string) (r : Response) : Meta :=
  match resp_etag r with
  | Some t =>
      let e := match etag m with Some e => e | None => ∅ end in
      mkMeta (pack_counter m) (last_update m) (Some (<[url := t]> e))
  | None => m
  end.

(** [Archive.parse]: later items with the same id replace earlier ones;
    items failing to parse are skipped. *)
Definition parse (items : list (option Vulnerability)) : gmap string Vulnerability :=
  fold_left (fun advs it =>
               match it with
               | Some vuln => <[cve_id vuln := vuln]> advs
               | None => advs
               end) items ∅.

(** The loop of [Archive.parse] over the items up to the first
    exception other than [ValueError]: the items as [parse] takes them
    ([None] for a skipped item), or [None] when an exception escapes. *)
Fixpoint decode_items (items : list feed_item) : option (list (option Vulnerability)) :=
  match items with
  | [] => Some []
  | FeedVuln v :: rest => option_map (cons (Some v)) (decode_items rest)
  | FeedValueError :: rest => option_map (cons None) (decode_items rest)
  | FeedOtherError :: _ => None
  end.

(** Exceptions leaving [Archive.download]. *)
Inductive exn :=
| HTTPError (status : Z)
| ConnectionError
| BodyError.

(** [Response.raise_for_status] raises for 4xx and 5xx. *)
Definition is_http_error (status : Z) : bool := (Z.leb 400 status && Z.ltb status 600)%bool.

(** [Archive.download]: the parsed advisories and the updated metadata,
    or the exception.  [now] is [datetime.now()].  A 200 response whose
    body fails to decompress or decode, lacks [CVE_Items] or holds an
    item raising other than [ValueError] raises [BodyError] before the
    metadata is touched. *)
Definition download (srv : server) (now : Z) (mirror : string) (a : segment) (m : Meta)
  : exn + (gmap string Vulnerability * Meta) :=
  let url := (mirror +:+ download_uri a)%string in
  match srv url (headers_for m url) with
  | ConnectionFailed => inl ConnectionError
  | Responded r =>
      if is_http_error (status_code r) then inl (HTTPError (status_code r))
      else if Z.eqb (status_code r) 200 then
        match match body r with Some its => decode_items its | None => None end with
        | None => inl BodyError
        | Some items =>
            let advs := parse items in
            let m := update_headers_for m url r in
            inr (advs, mkMeta (pack_counter m) now (etag m))
        end
      else inr (∅, m)
  end.

(* ------------------------------------------------------------------ *)
(** ** [NVD.relevant_archives], [NVD.update], [NVD.__exit__] *)

(** [NVD.available_archives = range(current - 5, current + 1)] *)
Definition available_archives (current : Z) : list segment :=
  map (fun i => SegYear (current - 5 + Z.of_nat i)) (seq 0 6).

(** [NVD.relevant_archives]: one hour is 3600 s, seven days 604800 s. *)
Definition relevant_archives (st : Store) (now : Z) (current : Z) : list segment :=
  let lu := last_update (meta st) in
  if Z.ltb (now - 3600) lu then []
  else if Z.ltb (now - 604800) lu then [SegModified]
  else available_archives current ++ [SegModified].

(** The loop of [NVD.update]; [log] collects the URLs requested.  An
    exception ends the loop and propagates ([None]). *)
Fixpoint update_loop (srv : server) (now : Z) (mirror : string) (segs : list segment)
    (st : Store) (log : list string) : option Store * list string :=
  match segs with
  | [] => (Some st, log)
  | a :: rest =>
      let url := (mirror +:+ download_uri a)%string in
      match download srv now mirror a (meta st) with
      | inl _ => (None, log ++ [url])
      | inr (advs, m) => update_loop srv now mirror rest (add advs (set_meta st m)) (log ++ [url])
      end
  end.

(** [NVD.update]: the new store, or [None] when an exception escaped
    (the enclosing [with] block then aborts the transaction), and the
    URLs requested. *)
Definition update (srv : server) (now current : Z) (mirror : string) (st : Store)
  : option Store * list string :=
  match update_loop srv now mirror (relevant_archives st now current) st [] with
  | (Some st', log) => (Some (reindex st'), log)
  | (None, log) => (None, log)
  end.

(** [NVD.__exit__] without an exception: [should_pack], then commit (and
    [db.pack()] when it says so; packing only rewrites the storage file
    and leaves the root objects as they are).  Returns whether it packed. *)
Definition nvd_exit_clean (st : Store) : bool * Store :=
  let (pack, m) := should_pack (meta st) in (pack, set_meta st m).

(** [n] sessions in a row, each ending cleanly: the packing decisions. *)
Fixpoint clean_sessions (n : nat) (st : Store) : list bool * Store :=
  match n with
  | O => ([], st)
  | S k =>
      let (p, st1) := nvd_exit_clean st in
      let (ps, st2) := clean_sessions k st1 in (p :: ps, st2)
  end.

(* ------------------------------------------------------------------ *)
(** ** Concrete inputs *)

(** A version comparator for concrete runs: equal strings compare
    equal, otherwise by [str_lt]. *)
Definition cmp_plain (a b : string) : Z :=
  if String.eqb a b then 0 else if str_lt a b then -1 else 1.

(** A record listing product [p] in two nodes. *)
Definition vuln_twice : Vulnerability :=
  mkVuln "CVE-2021-0001" [mkNode "p" (VRange None None); mkNode "p" (VExact "1.0")].

Definition store_twice : Store := mkStore {[ "CVE-2021-0001" := vuln_twice ]} ∅ default_meta.

Definition vuln_1234 : Vulnerability := mkVuln "CVE-2021-1234" [mkNode "foo" (VExact "1.0")].

Definition store_1234 : Store :=
  reindex (mkStore {[ "CVE-2021-1234" := vuln_1234 ]} ∅ default_meta).

Definition mirror0 : string := "https://nvd.nist.gov/feeds/json/cve/1.1/".

(** A mirror answering every request with the given status. *)
Definition server_status (code : Z) : server :=
  fun _ _ => Responded (mkResponse code (Some []) None).

(** 2026-10-15 00:00:00 in seconds since 1970-01-01. *)
Definition now0 : Z := 1792022400.


(* ------------------------------------------------------------------ *)
(** ** Predicates used in the statements *)

(** [s] as a whole matches [R_CVE] (with [re.IGNORECASE]). *)
Definition cve_fullmatch (s : string) : bool :=
  match r_cve_match s with
  | Some (_, EmptyString) => true
  | _ => false
  end.

Definition starts_with_digit (s : string) : bool :=
  match s with
  | String c _ => is_digit c
  | EmptyString => false
  end.

Fixpoint all_chars (p : ascii -> bool) (s : string) : bool :=
  match s with
  | EmptyString => true
  | String c s' => (p c && all_chars p s')%bool
  end.

Definition str_tail (s : string) : string :=
  match s with
  | EmptyString => EmptyString
  | String _ s' => s'
  end.

(** The matching engine as the spec words it: the unremediated matches
    of the first product candidate that has any, else nothing. *)
Fixpoint first_nonempty (ls : list (list Vulnerability)) : list Vulnerability :=
  match ls with
  | [] => []
  | [] :: rest => first_nonempty rest
  | l :: _ => l
  end.

Definition unremediated_matches (compare_versions : string -> string -> Z)
    (d : Derive) (st : Store) (pn : string) : list Vulnerability :=
  filter (fun vuln => cve_id vuln ∉ applied_patches d)
    (affected compare_versions st pn (version d)).

Definition check_spec (compare_versions : string -> string -> Z)
    (d : Derive) (st : Store) : list Vulnerability :=
  first_nonempty (map (unremediated_matches compare_versions d st) (product_candidates d)).

(** [s] starts with a dash followed by a digit. *)
Definition dash_digit_start (s : string) : bool :=
  match s with
  | String c (String d _) => (Ascii.eqb c "-" && is_digit d)%bool
  | _ => false
  end.

Definition not_space (c : ascii) : bool := negb (is_space c).

(* ------------------------------------------------------------------ *)
(** ** [NVD.__init__], the whole of [Derive.__init__], [NVD.__exit__] *)

(** [str.rstrip('/')]: drops the trailing run of slashes. *)
Fixpoint rstrip_slash (s : string) : string :=
  match s with
  | EmptyString => EmptyString
  | String c s' =>
      let r := rstrip_slash s' in
      if (Ascii.eqb c "/" && String.eqb r EmptyString)%bool then EmptyString
      else String c r
  end.

(** [NVD.__init__]: [self.mirror = mirror.rstrip('/') + '/']. *)
Definition nvd_mirror (mirror : string) : string := (rstrip_slash mirror +:+ "/")%string.

(** The URL [Archive.download] requests for a segment. *)
Definition seg_url (mirror : string) (a : segment) : string := (mirror +:+ download_uri a)%string.

(** Every record is stored under its own id. *)
Definition keys_ok (advs : gmap string Vulnerability) : Prop :=
  forall k v, advs !! k = Some v -> cve_id v = k.

Definition is_lower (c : ascii) : bool := Ascii.eqb (ascii_lower c) c.

Definition not_dash (c : ascii) : bool := negb (Ascii.eqb c "-").

Definition newline : string := String "010" EmptyString.

(* ------------------------------------------------------------------ *)
(** ** Sanity checks on concrete inputs *)

Example split_name_ex1 : split_name "foo-1.2.3" = ("foo", Some "1.2.3").
Proof. reflexivity. Qed.
Example split_name_ex2 : split_name "Foo-1.0" = ("foo", Some "1.0").
Proof. reflexivity. Qed.
Example split_name_ex3 : split_name "nameonly" = ("nameonly", None).
Proof. reflexivity. Qed.
Example split_name_ex4 : split_name "foo-1.0.drv" = ("foo", Some "1.0").
Proof. reflexivity. Qed.
Example cve_ex : r_cve_finditer "fix-cve-2021-12345.patch CVE-2020-1x" =
  ["cve-2021-12345"; "CVE-2020-1"].
Proof. reflexivity. Qed.

Example segment_name_ex : download_uri (SegYear 2021) = "nvdcve-1.1-2021.json.gz".
Proof. reflexivity. Qed.
Example store_twice_ex : by_product (reindex store_twice) "p" = [vuln_twice; vuln_twice].
Proof. reflexivity. Qed.
Example check_1234_ex :
  check cmp_plain (mkDerive "foo-1.0" "foo" "1.0" "CVE-2021-12345.patch") store_1234 = [vuln_1234].
Proof. reflexivity. Qed.
Example update_304_ex :
  update (server_status 304) now0 2026 mirror0 (mkStore ∅ ∅ (mkMeta 0 (now0 - 7200) None))
  = (Some (mkStore ∅ ∅ (mkMeta 0 (now0 - 7200) None)),
     ["https://nvd.nist.gov/feeds/json/cve/1.1/nvdcve-1.1-modified.json.gz"]).
Proof. reflexivity. Qed.

(* ------------------------------------------------------------------ *)
(** ** Strings *)

#[local] Arguments String.append : simpl nomatch.

Lemma str_app_assoc (a b c : string) : (a +:+ b) +:+ c = a +:+ (b +:+ c).
Proof. induction a as [|x a IH]; simpl; [reflexivity | now rewrite IH]. Qed.

Lemma str_length_app (a b : string) :
  String.length (a +:+ b) = (String.length a + String.length b)%nat.
Proof. induction a as [|x a IH]; simpl; [reflexivity | now rewrite IH]. Qed.

Lemma all_chars_app p (a b : string) :
  all_chars p (a +:+ b) = (all_chars p a && all_chars p b)%bool.
Proof.
  induction a as [|x a IH]; simpl; [reflexivity|].
  rewrite IH. now destruct (p x).
Qed.

(* ------------------------------------------------------------------ *)
(** ** The CVE scanner *)

Definition not_c (ch : ascii) : bool := negb (ci_eq ch "C").

Lemma digit_not_c d : is_digit d = true -> not_c d = true.
Proof. destruct d as [[] [] [] [] [] [] [] []]; vm_compute; congruence. Qed.

Lemma ci_eq_other c u : ci_eq c u = true -> Ascii.eqb u "C" = false -> not_c c = true.
Proof.
  unfold not_c, ci_eq. intros H Hu. apply Ascii.eqb_eq in H. rewrite H, Hu. reflexivity.
Qed.

Lemma digit_run_spec r ds rest :
  digit_run r = (ds, rest) -> r = ds +:+ rest /\ all_chars is_digit ds = true.
Proof.
  revert ds rest. induction r as [|c r IH]; simpl; intros ds rest E.
  - inversion E; subst. split; reflexivity.
  - destruct (is_digit c) eqn:Hc.
    + destruct (digit_run r) as [ds' r'] eqn:E'. inversion E; subst.
      destruct (IH _ _ eq_refl) as [-> Hd]. simpl. rewrite Hc, Hd. split; reflexivity.
    + inversion E; subst. split; reflexivity.
Qed.

Lemma all_digits_not_c s : all_chars is_digit s = true -> all_chars not_c s = true.
Proof.
  induction s as [|c s IH]; simpl; [reflexivity|].
  intros H. apply andb_prop in H as [Hc Hs].
  rewrite (digit_not_c c Hc), (IH Hs). reflexivity.
Qed.

Lemma str_app_nil_r (a : string) : a +:+ EmptyString = a.
Proof. induction a as [|x a IH]; simpl; [reflexivity | now rewrite IH]. Qed.

Lemma digit_run_app r ds post :
  digit_run r = (ds, EmptyString) -> starts_with_digit post = false ->
  digit_run (r +:+ post) = (ds, post).
Proof.
  intros E Hp. destruct (digit_run_spec _ _ _ E) as [Hr Hd]. clear E.
  rewrite str_app_nil_r in Hr. subst r.
  induction ds as [|c ds IH]; simpl in *.
  - destruct post as [|c post]; simpl in *; [reflexivity|]. now rewrite Hp.
  - apply andb_prop in Hd as [Hc Hd]. rewrite Hc, (IH Hd). reflexivity.
Qed.

Ltac destruct_if :=
  match goal with
  | H : context [if ?b then _ else _] |- _ => destruct b eqn:?
  | |- context [if ?b then _ else _] => destruct b eqn:?
  end.

Lemma r_cve_match_app m post :
  cve_fullmatch m = true -> starts_with_digit post = false ->
  r_cve_match (m +:+ post) = Some (m, post).
Proof.
  unfold cve_fullmatch. intros Hm Hp.
  destruct m as [|c1 [|c2 [|c3 [|c4 [|d1 [|d2 [|d3 [|d4 [|c5 r]]]]]]]]];
    simpl in *; try discriminate.
  destruct_if; [|discriminate].
  destruct (digit_run r) as [ds rest] eqn:E.
  destruct ds as [|x ds]; [discriminate|]. destruct rest; [|discriminate].
  rewrite (digit_run_app r (String x ds) post E Hp).
  destruct (digit_run_spec _ _ _ E) as [Hr _]. rewrite str_app_nil_r in Hr.
  subst r. reflexivity.
Qed.

Lemma r_cve_match_shape s m rest :
  r_cve_match s = Some (m, rest) ->
  s = m +:+ rest /\ exists c t, m = String c t /\ all_chars not_c t = true.
Proof.
  destruct s as [|c1 [|c2 [|c3 [|c4 [|d1 [|d2 [|d3 [|d4 [|c5 r]]]]]]]]];
    simpl; try discriminate.
  destruct_if; [|discriminate].
  apply andb_prop in Heqb as [Heqb H9]. apply andb_prop in Heqb as [Heqb H8].
  apply andb_prop in Heqb as [Heqb H7]. apply andb_prop in Heqb as [Heqb H6].
  apply andb_prop in Heqb as [Heqb H5]. apply andb_prop in Heqb as [Heqb H4].
  apply andb_prop in Heqb as [Heqb H3]. apply andb_prop in Heqb as [H1 H2].
  destruct (digit_run r) as [ds rest'] eqn:E.
  destruct (digit_run_spec _ _ _ E) as [-> Hd].
  destruct ds as [|x ds]; [discriminate|]. intros Hs; inversion Hs; subst.
  split; [reflexivity|]. exists c1.
  eexists; split; [reflexivity|]. simpl.
  rewrite (ci_eq_other c2 "V"), (ci_eq_other c3 "E"); auto.
  apply Ascii.eqb_eq in H4. apply Ascii.eqb_eq in H9. subst c4 c5.
  rewrite (digit_not_c d1 H5), (digit_not_c d2 H6), (digit_not_c d3 H7), (digit_not_c d4 H8).
  apply all_digits_not_c in Hd. simpl in Hd. rewrite Hd. reflexivity.
Qed.

Lemma cve_scan_S f s :
  s <> EmptyString ->
  cve_scan (S f) s =
    match r_cve_match s with
    | Some (m, rest) => m :: cve_scan f rest
    | None => cve_scan f (str_tail s)
    end.
Proof. destruct s; [congruence | reflexivity]. Qed.

Lemma fullmatch_head m :
  cve_fullmatch m = true -> exists c t, m = String c t /\ ci_eq c "C" = true.
Proof.
  unfold cve_fullmatch.
  destruct m as [|c1 [|c2 [|c3 [|c4 [|d1 [|d2 [|d3 [|d4 [|c5 r]]]]]]]]];
    simpl; try discriminate.
  destruct_if; [|discriminate]. intros _.
  exists c1. eexists. split; [reflexivity|].
  repeat (apply andb_prop in Heqb as [Heqb _]). exact Heqb.
Qed.

(** A match found by the scanner cannot contain the start of another
    one: only its first character can be a [C]. *)
Lemma no_overlap t pre x rest :
  pre +:+ x = t +:+ rest -> all_chars not_c t = true ->
  (exists c y, x = String c y /\ ci_eq c "C" = true) ->
  exists u, pre = t +:+ u /\ rest = u +:+ x.
Proof.
  revert pre. induction t as [|a t IH]; intros pre Heq Ht (c & y & Hx & Hc).
  - exists pre. split; [reflexivity | symmetry; exact Heq].
  - simpl in Ht. apply andb_prop in Ht as [Ha Ht].
    destruct pre as [|b pre']; simpl in Heq.
    + rewrite Hx in Heq. inversion Heq as [[Hca Hy]]. subst a.
      unfold not_c in Ha. rewrite Hc in Ha. discriminate.
    + inversion Heq as [[Hb Heq']]. subst b.
      destruct (IH pre' Heq' Ht) as (u & -> & ->); [eauto|].
      exists u. split; reflexivity.
Qed.

(** [finditer] reports every occurrence of the pattern whose digits are
    not followed by a further digit. *)
Lemma cve_scan_finds f pre m post :
  (String.length (pre +:+ m +:+ post) <= f)%nat ->
  cve_fullmatch m = true -> starts_with_digit post = false ->
  In m (cve_scan f (pre +:+ m +:+ post)).
Proof.
  revert pre. induction f as [|f IH]; intros pre Hlen Hm Hp;
    destruct (fullmatch_head m Hm) as (cm & mt & Hmeq & Hc).
  - subst m. rewrite !str_length_app in Hlen. simpl in Hlen. lia.
  - rewrite cve_scan_S by (subst m; destruct pre; discriminate).
    destruct pre as [|c0 pre'].
    + assert (E : r_cve_match (EmptyString +:+ m +:+ post) = Some (m, post))
        by exact (r_cve_match_app m post Hm Hp).
      rewrite E. left. reflexivity.
    + destruct (r_cve_match (String c0 pre' +:+ m +:+ post)) as [[m' rest]|] eqn:E.
      * apply r_cve_match_shape in E as [Hs (c1 & t & -> & Ht)].
        simpl in Hs. inversion Hs as [[H0 Hs']]. subst c1.
        assert (Hx : exists c y, m +:+ post = String c y /\ ci_eq c "C" = true)
          by (subst m; exists cm, (mt +:+ post); split; [reflexivity | exact Hc]).
        destruct (no_overlap t pre' (m +:+ post) rest Hs' Ht Hx) as (u & -> & ->).
        right. apply IH; [|assumption..].
        clear -Hlen. simpl in Hlen. rewrite ?str_length_app in *. simpl in Hlen. lia.
      * simpl. apply IH; [|assumption..].
        simpl in Hlen. lia.
Qed.

Lemma applied_patches_complete d pre m post :
  patches d = pre +:+ m +:+ post ->
  cve_fullmatch m = true -> starts_with_digit post = false ->
  In (str_upper m) (applied_patches d).
Proof.
  intros Hd Hm Hp. unfold applied_patches, r_cve_finditer.
  apply in_map. rewrite Hd. apply cve_scan_finds; auto.
Qed.

(* ------------------------------------------------------------------ *)
(** ** Python sets and [Derive.check] *)

Lemma set_add_In x v s : In x (set_add v s) -> x = v \/ In x s.
Proof.
  unfold set_add. destruct (decide (v ∈ s)); [auto|].
  intros H. apply in_app_or in H as [H|[H|[]]]; auto.
Qed.

Section CheckFacts.
Variable compare_versions : string -> string -> Z.

Lemma check_candidate_unpatched patched st pn v acc :
  (forall x, In x acc -> cve_id x ∉ patched) ->
  forall x, In x (check_candidate compare_versions patched st pn v acc) -> cve_id x ∉ patched.
Proof.
  unfold check_candidate. generalize (affected compare_versions st pn v) as l.
  intros l. revert acc. induction l as [|y l IH]; simpl; intros acc Hacc; [exact Hacc|].
  apply IH. intros x Hx. destruct (decide (cve_id y ∈ patched)); [auto|].
  apply set_add_In in Hx as [->|Hx]; auto.
Qed.

Lemma check_loop_unpatched patched st v cands acc :
  (forall x, In x acc -> cve_id x ∉ patched) ->
  forall x, In x (check_loop compare_versions patched st v cands acc) -> cve_id x ∉ patched.
Proof.
  revert acc. induction cands as [|pn cands IH]; simpl; intros acc Hacc; [exact Hacc|].
  pose proof (check_candidate_unpatched patched st pn v acc Hacc) as Hc.
  destruct (check_candidate compare_versions patched st pn v acc); [|exact Hc].
  apply IH. exact Hc.
Qed.

Lemma check_unpatched d st x :
  In x (check compare_versions d st) -> cve_id x ∉ applied_patches d.
Proof.
  unfold check. apply check_loop_unpatched. intros y [].
Qed.
End CheckFacts.

(* ------------------------------------------------------------------ *)
(** ** C1: patched CVEs are never reported *)

(** C1 (as stated): a substring of the patch text that matches the CVE
    pattern does not always suppress the vulnerability with that id: in
    [CVE-2021-12345.patch] the substring [CVE-2021-1234] matches the
    pattern, yet [finditer] only reports the greedy match
    [CVE-2021-12345], so [CVE-2021-1234] is still reported. *)
Lemma C1_patch_substring_not_excluded :
  let d := mkDerive "foo-1.0" "foo" "1.0" "CVE-2021-12345.patch" in
  patches d = "" +:+ "CVE-2021-1234" +:+ "5.patch" /\
  cve_fullmatch "CVE-2021-1234" = true /\
  cve_id vuln_1234 = str_upper "CVE-2021-1234" /\
  vuln_match cmp_plain vuln_1234 "foo" "1.0" = true /\
  In vuln_1234 (check cmp_plain d store_1234).
Proof. vm_compute. repeat split; auto. Qed.

(** C1 (amended): when the patch text contains an occurrence of the
    CVE pattern (case-insensitive) that is not followed by a further
    digit, [Derive.check] never reports a vulnerability whose id is the
    upper-cased occurrence, whatever the store and the version
    comparator. *)
Theorem check_excludes_patched_cve (compare_versions : string -> string -> Z)
    (st : Store) (d : Derive) (pre m post : string) (vuln : Vulnerability) :
  patches d = pre +:+ m +:+ post ->
  cve_fullmatch m = true ->
  starts_with_digit post = false ->
  cve_id vuln = str_upper m ->
  ~ In vuln (check compare_versions d st).
Proof.
  intros Hd Hm Hp Hid Hin.
  apply (check_unpatched compare_versions d st vuln Hin).
  rewrite Hid. apply list_elem_of_In.
  exact (applied_patches_complete d pre m post Hd Hm Hp).
Qed.

Lemma check_excludes_patched_cve_witness :
  cve_fullmatch "CVE-2021-1234" = true /\
  vuln_match cmp_plain vuln_1234 "foo" "1.0" = true /\
  ~ In vuln_1234 (check cmp_plain (mkDerive "foo-1.0" "foo" "1.0" "fix-cve-2021-1234.patch") store_1234).
Proof.
  split; [reflexivity|]. split; [reflexivity|].
  apply (check_excludes_patched_cve cmp_plain store_1234
           (mkDerive "foo-1.0" "foo" "1.0" "fix-cve-2021-1234.patch")
           "fix-" "cve-2021-1234" ".patch" vuln_1234); reflexivity.
Defined.

(* ------------------------------------------------------------------ *)
(** ** [NVD.affected] returns a set *)

Lemma set_add_NoDup v s : NoDup s -> NoDup (set_add v s).
Proof.
  unfold set_add. intros Hs. destruct (decide (v ∈ s)) as [_|Hv]; [exact Hs|].
  apply NoDup_app. split; [exact Hs|]. split; [|apply NoDup_singleton].
  intros x Hx Hx'. apply list_elem_of_singleton in Hx'. subst x. contradiction.
Qed.

Lemma affected_NoDup compare_versions st pn v :
  NoDup (affected compare_versions st pn v).
Proof.
  unfold affected. generalize (@NoDup_nil_2 Vulnerability).
  generalize (@nil Vulnerability) as acc. generalize (by_product st pn) as l.
  induction l as [|y l IH]; simpl; intros acc Hacc; [exact Hacc|].
  apply IH. destruct (vuln_match compare_versions y pn v); [|exact Hacc].
  apply set_add_NoDup. exact Hacc.
Qed.

Lemma set_add_fresh v s : v ∉ s -> set_add v s = s ++ [v].
Proof. unfold set_add. intros Hv. destruct (decide (v ∈ s)); [contradiction|reflexivity]. Qed.

Lemma check_candidate_filter compare_versions patched st pn v :
  check_candidate compare_versions patched st pn v [] =
  filter (fun vuln => cve_id vuln ∉ patched) (affected compare_versions st pn v).
Proof.
  unfold check_candidate.
  generalize (affected_NoDup compare_versions st pn v).
  generalize (affected compare_versions st pn v) as l. intros l Hnd.
  change (filter (fun vuln => cve_id vuln ∉ patched) l)
    with ([] ++ filter (fun vuln => cve_id vuln ∉ patched) l).
  assert (Hdisj : forall x, x ∈ l -> x ∉ @nil Vulnerability)
    by (intros x _ Hx; inversion Hx).
  revert Hdisj. generalize (@nil Vulnerability) as acc.
  induction l as [|y l IH]; intros acc Hdisj; simpl.
  - rewrite app_nil_r. reflexivity.
  - apply NoDup_cons in Hnd as [Hy Hnd]. rewrite filter_cons.
    destruct (decide (cve_id y ∈ patched)) as [Hp|Hp].
    + rewrite decide_False by (intros H; exact (H Hp)).
      apply IH; [exact Hnd|]. intros x Hx. apply Hdisj. apply list_elem_of_further. exact Hx.
    + rewrite decide_True by exact Hp.
      rewrite set_add_fresh by (apply Hdisj; apply list_elem_of_here).
      rewrite IH; [rewrite <- app_assoc; reflexivity | exact Hnd |].
      intros x Hx Hx'. apply elem_of_app in Hx' as [Hx'|Hx'].
      * exact (Hdisj x (list_elem_of_further _ _ _ Hx) Hx').
      * apply list_elem_of_singleton in Hx'. subst x. exact (Hy Hx).
Qed.

(* ------------------------------------------------------------------ *)
(** ** C2: product candidates are tried in order, the first hit wins *)

(** C2: the candidates are the product name, then (only if it differs)
    the name with [-] replaced by [_]; [Derive.check] returns the
    unremediated matches of the first candidate that has any, without
    looking at later candidates, and nothing when none has any. *)
Theorem check_first_candidate_with_match (compare_versions : string -> string -> Z)
    (d : Derive) (st : Store) :
  product_candidates d =
    pname d :: (if String.eqb (str_replace_char "-" "_" (pname d)) (pname d)
                then [] else [str_replace_char "-" "_" (pname d)]) /\
  check compare_versions d st = check_spec compare_versions d st.
Proof.
  split; [reflexivity|].
  unfold check, check_spec.
  generalize (product_candidates d) as cands. intros cands.
  induction cands as [|pn cands IH]; simpl; [reflexivity|].
  rewrite check_candidate_filter. unfold unremediated_matches.
  destruct (filter _ _) as [|x l]; [exact IH | reflexivity].
Qed.

(* ------------------------------------------------------------------ *)
(** ** C10: [NVD.affected] has no duplicates; [NVD.by_product] may *)

(** C10: [NVD.affected] never lists a record twice; [NVD.by_product]
    gives the empty list for a product missing from the index, and can
    list a record twice (here one listing product [p] in two nodes),
    while [affected] lists it once. *)
Theorem affected_no_duplicates :
  (forall (compare_versions : string -> string -> Z) (st : Store) (pn v : string),
      NoDup (affected compare_versions st pn v)) /\
  (forall (st : Store) (pn : string), by_product_idx st !! pn = None -> by_product st pn = []) /\
  by_product (reindex store_twice) "p" = [vuln_twice; vuln_twice] /\
  (forall compare_versions : string -> string -> Z,
      affected compare_versions (reindex store_twice) "p" "1.0" = [vuln_twice]).
Proof.
  split; [exact affected_NoDup|]. split.
  - intros st pn H. unfold by_product. rewrite H. reflexivity.
  - split; [reflexivity|]. intros cv. reflexivity.
Qed.

(* ------------------------------------------------------------------ *)
(** ** C3: [split_name] *)

Lemma span_nonspace_spec r r1 t :
  span_nonspace r = (r1, t) -> r = r1 +:+ t /\ all_chars not_space r1 = true.
Proof.
  revert r1 t. induction r as [|c r IH]; simpl; intros r1 t E.
  - inversion E; subst. split; reflexivity.
  - destruct (is_space c) eqn:Hc.
    + inversion E; subst. split; reflexivity.
    + destruct (span_nonspace r) as [r1' t'] eqn:E'. inversion E; subst.
      destruct (IH _ _ eq_refl) as [-> Hr]. simpl.
      unfold not_space at 1. rewrite Hc, Hr. split; reflexivity.
Qed.

Lemma dollar_ok_spec t : dollar_ok t = true -> t = EmptyString \/ t = newline.
Proof.
  destruct t as [|c [|c' t]]; simpl; intros H; [auto | | discriminate].
  apply Ascii.eqb_eq in H. subst. right. reflexivity.
Qed.

Lemma version_tail_spec s v :
  version_tail s = Some v ->
  exists d r1 t, s = String "-" (String d (r1 +:+ t)) /\ v = String d r1 /\
    is_digit d = true /\ all_chars not_space r1 = true /\ dollar_ok t = true.
Proof.
  destruct s as [|c [|d r]]; simpl; try discriminate.
  destruct (Ascii.eqb c "-" && is_digit d)%bool eqn:Hcd; [|discriminate].
  apply andb_prop in Hcd as [Hc Hd]. apply Ascii.eqb_eq in Hc. subst c.
  destruct (span_nonspace r) as [r1 t] eqn:E.
  destruct (span_nonspace_spec _ _ _ E) as [-> Hr1].
  destruct (dollar_ok t) eqn:Ht; [|discriminate]. intros H; inversion H; subst.
  exists d, r1, t. repeat split; assumption.
Qed.

Lemma digit_not_space d : is_digit d = true -> not_space d = true.
Proof. destruct d as [[] [] [] [] [] [] [] []]; vm_compute; congruence. Qed.

Lemma r_version_match_spec s g1 g2 :
  r_version_match s = Some (g1, g2) ->
  exists t, s = g1 +:+ String "-" (g2 +:+ t) /\ dollar_ok t = true /\
    g1 <> EmptyString /\ starts_with_digit g2 = true /\
    all_chars not_space g1 = true /\ all_chars not_space g2 = true.
Proof.
  revert g1 g2. induction s as [|c s IH]; simpl; intros g1 g2 H; [discriminate|].
  destruct (is_space c) eqn:Hc; [discriminate|].
  destruct (version_tail s) as [v|] eqn:Ev.
  - inversion H; subst g1 g2.
    destruct (version_tail_spec _ _ Ev) as (d & r1 & t & -> & -> & Hd & Hr1 & Ht).
    exists t. simpl. unfold not_space at 1. rewrite Hc, Hd, Hr1, (digit_not_space d Hd).
    repeat split; try assumption; try reflexivity; congruence.
  - destruct (r_version_match s) as [[g g']|] eqn:Er; [|discriminate].
    inversion H; subst g1 g2.
    destruct (IH g g' eq_refl) as (t & -> & Ht & _ & Hg' & Hg & Hg'2).
    exists t. simpl. unfold not_space at 1. rewrite Hc, Hg.
    repeat split; try assumption; try reflexivity; congruence.
Qed.

Lemma span_nonspace_all r : all_chars not_space r = true -> span_nonspace r = (r, EmptyString).
Proof.
  induction r as [|c r IH]; simpl; [reflexivity|].
  unfold not_space. destruct (is_space c); simpl; [discriminate|].
  intros H. rewrite (IH H). reflexivity.
Qed.

Lemma version_tail_dash s v : version_tail s = Some v -> dash_digit_start s = true.
Proof.
  destruct s as [|c [|d r]]; simpl; try discriminate.
  destruct (Ascii.eqb c "-" && is_digit d)%bool; [reflexivity | discriminate].
Qed.

Lemma span_nonspace_all_tail r t :
  all_chars not_space r = true -> t = EmptyString \/ t = newline ->
  span_nonspace (r +:+ t) = (r, t).
Proof.
  intros Hr Ht. induction r as [|c r IH]; simpl.
  - destruct Ht as [-> | ->]; reflexivity.
  - simpl in Hr. apply andb_prop in Hr as [Hc Hr].
    unfold not_space in Hc. destruct (is_space c); [discriminate|].
    rewrite (IH Hr). reflexivity.
Qed.

Lemma dash_digit_start_app x y :
  (2 <= String.length x)%nat -> dash_digit_start (x +:+ y) = dash_digit_start x.
Proof. destruct x as [|c [|d x]]; simpl; intros H; [lia | lia | reflexivity]. Qed.

Lemma r_version_match_first p d r t :
  p <> EmptyString -> is_digit d = true ->
  all_chars not_space (p +:+ String "-" (String d r)) = true ->
  t = EmptyString \/ t = newline ->
  (forall p1 p2, p = p1 +:+ p2 -> p1 <> EmptyString -> p2 <> EmptyString ->
     dash_digit_start (p2 +:+ String "-" (String d r)) = false) ->
  r_version_match ((p +:+ String "-" (String d r)) +:+ t) = Some (p, String d r).
Proof.
  induction p as [|c p IH]; intros Hp Hd Hns Ht Hfirst; [congruence|].
  simpl in Hns |- *. apply andb_prop in Hns as [Hc Hns].
  unfold not_space in Hc. destruct (is_space c); [discriminate|].
  destruct p as [|c' p'].
  - simpl in Hns |- *. rewrite Hd.
    repeat (apply andb_prop in Hns as [_ Hns]).
    rewrite (span_nonspace_all_tail r t Hns Ht).
    destruct Ht as [-> | ->]; reflexivity.
  - destruct (version_tail ((String c' p' +:+ String "-" (String d r)) +:+ t)) eqn:Hv.
    + apply version_tail_dash in Hv.
      rewrite dash_digit_start_app in Hv by (simpl; rewrite str_length_app; simpl; lia).
      rewrite (Hfirst (String c EmptyString) (String c' p')) in Hv; try discriminate.
      reflexivity.
    + rewrite IH; [reflexivity | discriminate | exact Hd | exact Hns | exact Ht |].
      intros p1 p2 Hp12 Hp1 Hp2.
      apply Hfirst with (p1 := String c p1); [rewrite Hp12; reflexivity | discriminate | exact Hp2].
Qed.

Lemma space_in_tail g t a b c :
  all_chars not_space g = true -> is_space c = true ->
  g +:+ t = a +:+ String c b -> exists u, t = u +:+ String c b.
Proof.
  revert a. induction g as [|x g IH]; intros a Hg Hc H; simpl in H.
  - exists a. exact H.
  - simpl in Hg. apply andb_prop in Hg as [Hx Hg].
    destruct a as [|y a]; simpl in H; injection H as Hxy H.
    + subst x. unfold not_space in Hx. rewrite Hc in Hx. discriminate.
    + exact (IH a Hg Hc H).
Qed.

Lemma r_version_match_space s a b c :
  s = a +:+ String c b -> is_space c = true -> String c b <> newline ->
  r_version_match s = None.
Proof.
  intros Hs Hc Hnl. destruct (r_version_match s) as [[g1 g2]|] eqn:E; [|reflexivity].
  exfalso. destruct (r_version_match_spec _ _ _ E) as (t & Ht & Hdol & _ & Hd2 & Hn1 & Hn2).
  assert (Hg : all_chars not_space (g1 +:+ String "-" g2) = true).
  { rewrite all_chars_app, Hn1. simpl. rewrite Hn2. reflexivity. }
  rewrite Hs in Ht. replace (g1 +:+ String "-" (g2 +:+ t)) with ((g1 +:+ String "-" g2) +:+ t)
    in Ht by (rewrite str_app_assoc; reflexivity).
  destruct (space_in_tail _ _ _ _ _ Hg Hc (eq_sym Ht)) as [u ->].
  destruct (dollar_ok_spec _ Hdol) as [H|H].
  - destruct u; discriminate.
  - destruct u as [|y [|y' u]]; simpl in H; [congruence| |discriminate].
    injection H as _ H. destruct b; discriminate.
Qed.

Lemma r_version_match_none t :
  (forall p1 p2, t = p1 +:+ p2 -> p1 <> EmptyString -> dash_digit_start p2 = false) ->
  r_version_match t = None.
Proof.
  induction t as [|c t IH]; intros Hno; simpl; [reflexivity|].
  destruct (is_space c); [reflexivity|].
  destruct (version_tail t) eqn:Hv.
  - apply version_tail_dash in Hv.
    rewrite (Hno (String c EmptyString) t) in Hv; [discriminate | reflexivity | discriminate].
  - rewrite IH; [reflexivity|].
    intros p1 p2 Ht Hp1. apply Hno with (p1 := String c p1).
    + rewrite Ht. reflexivity.
    + discriminate.
Qed.

(** C3 (as stated): [split_name] does not always split the lower-cased
    name at the first dash followed by a digit: a trailing [.drv] is
    dropped first, and a name containing a space is not split. *)
Lemma C3_split_name_not_first_dash :
  str_lower "foo-1.0.drv" = "foo" +:+ "-1.0.drv" /\
  split_name "foo-1.0.drv" = ("foo", Some "1.0") /\
  split_name "foo-1.0.drv" <> ("foo", Some "1.0.drv") /\
  str_lower "foo-1 bar" = "foo" +:+ "-1 bar" /\
  split_name "foo-1 bar" = ("foo-1 bar", None).
Proof. repeat split; try reflexivity. discriminate. Qed.

(** C3 (amended): [split_name] lower-cases the name and drops one
    trailing [.drv].  (a) When the result has no whitespace, or none but
    one final newline (left out of the version), it is split at its
    first dash that is not the first character and is followed by a
    digit.  (b) When the result has any other whitespace it is not
    split, and [Derive.__init__] raises [SkipDrv].  (c) When there is no
    such dash, the version is [None] and [Derive.__init__] raises
    [SkipDrv].  So [foo-1.2.3] gives [(foo, 1.2.3)], [Foo-1.0] gives
    [(foo, 1.0)] and [nameonly] is skipped. *)
Theorem split_name_first_dash_digit :
  (forall (s p r t : string) (d : ascii),
      lower_strip_drv s = (p +:+ String "-" (String d r)) +:+ t ->
      t = EmptyString \/ t = newline ->
      p <> EmptyString -> is_digit d = true ->
      all_chars not_space (p +:+ String "-" (String d r)) = true ->
      (forall p1 p2, p = p1 +:+ p2 -> p1 <> EmptyString -> p2 <> EmptyString ->
         dash_digit_start (p2 +:+ String "-" (String d r)) = false) ->
      split_name s = (p, Some (String d r))) /\
  (forall (s a b patch_text : string) (c : ascii),
      lower_strip_drv s = a +:+ String c b -> is_space c = true -> String c b <> newline ->
      split_name s = (lower_strip_drv s, None) /\ derive_init s patch_text = SkipDrv) /\
  (forall s patch_text : string,
      (forall p1 p2, lower_strip_drv s = p1 +:+ p2 -> p1 <> EmptyString ->
         dash_digit_start p2 = false) ->
      split_name s = (lower_strip_drv s, None) /\ derive_init s patch_text = SkipDrv) /\
  split_name "foo-1.2.3" = ("foo", Some "1.2.3") /\
  split_name "Foo-1.0" = ("foo", Some "1.0") /\
  derive_init "nameonly" "" = SkipDrv.
Proof.
  split; [|split; [|split; [|split; [reflexivity | split; reflexivity]]]].
  - intros s p r t d Hs Ht Hp Hd Hns Hfirst. unfold split_name. rewrite Hs.
    rewrite r_version_match_first; auto.
  - intros s a b pt c Hs Hc Hnl.
    assert (Hsplit : split_name s = (lower_strip_drv s, None))
      by (unfold split_name; rewrite (r_version_match_space _ _ _ _ Hs Hc Hnl); reflexivity).
    split; [exact Hsplit|].
    unfold derive_init. rewrite Hsplit. destruct (existsb _ _); reflexivity.
  - intros s pt Hno.
    assert (Hsplit : split_name s = (lower_strip_drv s, None))
      by (unfold split_name; rewrite (r_version_match_none _ Hno); reflexivity).
    split; [exact Hsplit|].
    unfold derive_init. rewrite Hsplit. destruct (existsb _ _); reflexivity.
Qed.

Lemma split_name_first_dash_digit_witness :
  lower_strip_drv "Foo-Bar-2.1.drv" = ("foo-bar" +:+ String "-" (String "2"%char ".1")) +:+ "" /\
  split_name "Foo-Bar-2.1.drv" = ("foo-bar", Some "2.1") /\
  split_name ("foo-1.0" +:+ newline) = ("foo", Some "1.0") /\
  split_name "foo-1 bar" = ("foo-1 bar", None) /\
  split_name "nameonly" = ("nameonly", None).
Proof.
  split; [reflexivity|]. split; [|split; [|split]].
  - apply (proj1 split_name_first_dash_digit "Foo-Bar-2.1.drv" "foo-bar" ".1" "" "2"%char);
      [reflexivity | left; reflexivity | discriminate | reflexivity | reflexivity |].
    intros p1 p2 Hp Hp1 Hp2.
    destruct p1 as [|a1 [|a2 [|a3 [|a4 [|a5 [|a6 [|a7 [|a8 p1']]]]]]]]; simpl in Hp;
      try discriminate; inversion Hp; subst; try reflexivity; congruence.
  - apply (proj1 split_name_first_dash_digit ("foo-1.0" +:+ newline) "foo" ".0" newline "1"%char);
      [reflexivity | right; reflexivity | discriminate | reflexivity | reflexivity |].
    intros p1 p2 Hp Hp1 Hp2.
    destruct p1 as [|a1 [|a2 [|a3 [|a4 p1']]]]; simpl in Hp;
      try discriminate; inversion Hp; subst; try reflexivity; congruence.
  - exact (proj1 (proj1 (proj2 split_name_first_dash_digit) "foo-1 bar" "foo-1" "bar"
                    EmptyString " "%char eq_refl eq_refl ltac:(discriminate))).
  - assert (Hno : forall p1 p2, lower_strip_drv "nameonly" = p1 +:+ p2 ->
                   p1 <> EmptyString -> dash_digit_start p2 = false).
    { intros p1 p2 Hp Hp1.
      destruct p1 as [|a1 [|a2 [|a3 [|a4 [|a5 [|a6 [|a7 [|a8 [|a9 p1']]]]]]]]]; simpl in Hp;
        try discriminate; inversion Hp; subst; try reflexivity; congruence. }
    exact (proj1 (proj1 (proj2 (proj2 split_name_first_dash_digit)) "nameonly" EmptyString Hno)).
Defined.

(* ------------------------------------------------------------------ *)
(** ** C4: archive and patch names are skipped *)

(** C4 (as stated): the extension test of [Derive.__init__] looks at the
    name as given, before any lower-casing or [.drv] stripping: a name
    ending in [.TAR.GZ], or in [.tar.gz.drv], is not skipped although
    its lower-cased, stripped form ends in [.tar.gz]. *)
Lemma C4_extension_case_sensitive :
  ends_with ".tar.gz" (lower_strip_drv "foo-1.0.TAR.GZ") = true /\
  derive_init "foo-1.0.TAR.GZ" EmptyString =
    Init (mkDerive "foo-1.0.TAR.GZ" "foo" "1.0.tar.gz" EmptyString) /\
  ends_with ".tar.gz" (lower_strip_drv "foo-1.0.tar.gz.drv") = true /\
  derive_init "foo-1.0.tar.gz.drv" EmptyString =
    Init (mkDerive "foo-1.0.tar.gz.drv" "foo" "1.0.tar.gz" EmptyString).
Proof. repeat split; reflexivity. Qed.

(** C4 (amended): every name that, exactly as given (case-sensitively,
    with nothing stripped), ends with one of [.tar.gz], [.tar.bz2],
    [.tar.xz], [.zip], [.patch], [.diff] makes [Derive.__init__] raise
    [SkipDrv]. *)
Theorem derive_init_skips_extensions (nm patch_text e : string) :
  In e skip_extensions -> ends_with e nm = true ->
  derive_init nm patch_text = SkipDrv.
Proof.
  intros He Hend. unfold derive_init.
  assert (Hex : existsb (fun e => ends_with e nm) skip_extensions = true)
    by (apply existsb_exists; exists e; split; assumption).
  rewrite Hex. reflexivity.
Qed.

Lemma derive_init_skips_extensions_witness :
  In ".tar.gz" skip_extensions /\
  derive_init "openssl-1.0.2.tar.gz" EmptyString = SkipDrv.
Proof.
  split; [simpl; auto|].
  apply (derive_init_skips_extensions "openssl-1.0.2.tar.gz" EmptyString ".tar.gz");
    [simpl; auto | reflexivity].
Defined.

(* ------------------------------------------------------------------ *)
(** ** C5: the ordering of [Derive] objects *)

(** C5: [Derive.__gt__] answers [True] when [self.pname < other.pname]
    (its second test returns [True] where [__lt__] returns [False]), so
    for [a-1.0] and [b-1.0] both [a < b] and [a > b] hold, whatever the
    version comparator. *)
Theorem derive_lt_and_gt_both_hold (compare_versions : string -> string -> Z) :
  derive_init "a-1.0" EmptyString = Init (mkDerive "a-1.0" "a" "1.0" EmptyString) /\
  derive_init "b-1.0" EmptyString = Init (mkDerive "b-1.0" "b" "1.0" EmptyString) /\
  derive_lt compare_versions (mkDerive "a-1.0" "a" "1.0" EmptyString)
    (mkDerive "b-1.0" "b" "1.0" EmptyString) = true /\
  derive_gt compare_versions (mkDerive "a-1.0" "a" "1.0" EmptyString)
    (mkDerive "b-1.0" "b" "1.0" EmptyString) = true.
Proof. repeat split; reflexivity. Qed.

(* ------------------------------------------------------------------ *)
(** ** The update loop *)

Lemma update_loop_app srv now mirror pre post st log :
  update_loop srv now mirror (pre ++ post) st log =
    match update_loop srv now mirror pre st log with
    | (Some st', log') => update_loop srv now mirror post st' log'
    | (None, log') => (None, log')
    end.
Proof.
  revert st log. induction pre as [|a pre IH]; intros st log; simpl; [reflexivity|].
  destruct (download srv now mirror a (meta st)) as [e|[advs m]]; [reflexivity|].
  apply IH.
Qed.

Lemma download_last_update srv now mirror a m advs m' :
  download srv now mirror a m = inr (advs, m') ->
  last_update m' = now \/ m' = m.
Proof.
  unfold download.
  destruct (srv _ _) as [r|]; [|discriminate].
  destruct (is_http_error (status_code r)); [discriminate|].
  destruct (Z.eqb (status_code r) 200); [|intros H; inversion H; subst; right; reflexivity].
  destruct (match body r with Some its => decode_items its | None => None end);
    intros H; inversion H; subst; left; reflexivity.
Qed.

Lemma update_loop_keeps_now srv now mirror segs st log st' log' :
  update_loop srv now mirror segs st log = (Some st', log') ->
  last_update (meta st) = now -> last_update (meta st') = now.
Proof.
  revert st log. induction segs as [|a segs IH]; simpl; intros st log H Hlu.
  - injection H as <- _. exact Hlu.
  - destruct (download srv now mirror a (meta st)) as [e|[advs m]] eqn:E; [discriminate|].
    apply IH in H; [exact H|]. simpl.
    destruct (download_last_update _ _ _ _ _ _ _ E) as [Hm| ->]; assumption.
Qed.

Lemma download_200_now srv now mirror a m advs m' r :
  srv (seg_url mirror a) (headers_for m (seg_url mirror a)) = Responded r ->
  status_code r = 200 ->
  download srv now mirror a m = inr (advs, m') -> last_update m' = now.
Proof.
  intros Hsrv Hst. unfold download. unfold seg_url in Hsrv. rewrite Hsrv, Hst.
  change (is_http_error 200) with false. change (Z.eqb 200 200) with true. cbv iota.
  destruct (match body r with Some its => decode_items its | None => None end);
    intros H; inversion H; reflexivity.
Qed.

Lemma update_loop_sets_now_at srv now mirror pre a post st log st_a log_a r st' log' :
  update_loop srv now mirror pre st log = (Some st_a, log_a) ->
  srv (seg_url mirror a) (headers_for (meta st_a) (seg_url mirror a)) = Responded r ->
  status_code r = 200 ->
  update_loop srv now mirror (pre ++ a :: post) st log = (Some st', log') ->
  last_update (meta st') = now.
Proof.
  intros Hpre Hsrv Hst H. rewrite update_loop_app, Hpre in H. cbn [update_loop] in H.
  destruct (download srv now mirror a (meta st_a)) as [e|[advs m]] eqn:E; [discriminate|].
  apply (update_loop_keeps_now _ _ _ _ _ _ _ _ H). simpl.
  exact (download_200_now _ _ _ _ _ _ _ _ Hsrv Hst E).
Qed.

Lemma download_not_modified srv now mirror a m r :
  srv (seg_url mirror a) (headers_for m (seg_url mirror a)) = Responded r ->
  is_http_error (status_code r) = false -> status_code r <> 200 ->
  download srv now mirror a m = inr (∅, m).
Proof.
  intros Hsrv He Hn. unfold download. unfold seg_url in Hsrv. rewrite Hsrv, He.
  apply Z.eqb_neq in Hn. rewrite Hn. reflexivity.
Qed.

Lemma add_empty_same_meta st : add ∅ (set_meta st (meta st)) = st.
Proof. destruct st. unfold add, set_meta. simpl. rewrite map_to_list_empty. reflexivity. Qed.

(** Every request of the loop answered with a status that is neither an
    HTTP error nor 200: the store is left as it was. *)
Definition all_not_modified (srv : server) (mirror : string) (m : Meta) (segs : list segment)
  : Prop :=
  forall a, In a segs ->
    exists r, srv (seg_url mirror a) (headers_for m (seg_url mirror a)) = Responded r /\
             is_http_error (status_code r) = false /\ status_code r <> 200.

Lemma update_loop_not_modified srv now mirror segs st log :
  all_not_modified srv mirror (meta st) segs ->
  update_loop srv now mirror segs st log = (Some st, log ++ map (seg_url mirror) segs).
Proof.
  revert log. induction segs as [|a segs IH]; intros log H.
  - cbn [update_loop map]. rewrite app_nil_r. reflexivity.
  - destruct (H a (or_introl eq_refl)) as (r & Hsrv & He & Hn).
    cbn [update_loop map]. rewrite (download_not_modified _ _ _ _ _ _ Hsrv He Hn).
    rewrite add_empty_same_meta, IH; [rewrite <- app_assoc; reflexivity|].
    intros b Hb. apply H. right. exact Hb.
Qed.

Lemma relevant_archives_mono st now now' current :
  now <= now' -> incl (relevant_archives st now current) (relevant_archives st now' current).
Proof.
  intros Hle. unfold relevant_archives.
  destruct (Z.ltb_spec (now - 3600) (last_update (meta st))); [intros x []|].
  destruct (Z.ltb_spec (now' - 3600) (last_update (meta st))); [lia|].
  destruct (Z.ltb_spec (now - 604800) (last_update (meta st))).
  - destruct (Z.ltb_spec (now' - 604800) (last_update (meta st))); intros x Hx; [exact Hx|].
    apply in_or_app. right. exact Hx.
  - destruct (Z.ltb_spec (now' - 604800) (last_update (meta st))); [lia|]. apply incl_refl.
Qed.

(* ------------------------------------------------------------------ *)
(** ** C6: a failed segment download *)

(** C6 (as stated): a failed download is not absorbed.  With the last
    update in 1970 all seven segments are due; the first request gets a
    404, [NVD.update] raises, and no other segment is requested. *)
Lemma C6_failed_segment_aborts_sync :
  let st := mkStore ∅ ∅ default_meta in
  length (relevant_archives st now0 2026) = 7%nat /\
  update (server_status 404) now0 2026 mirror0 st =
    (None, [mirror0 +:+ "nvdcve-1.1-2021.json.gz"]).
Proof. split; reflexivity. Qed.

(** C6 (amended): when the request for a due segment fails (a 4xx or
    5xx status, or no connection), the exception leaves [NVD.update]:
    the run ends with an error right after that request, later segments
    are not requested and the index is not rebuilt. *)
Theorem update_aborts_on_failed_segment (srv : server) (now current : Z) (mirror : string)
    (st st' : Store) (pre post : list segment) (a : segment) (log' : list string) :
  let url := (mirror +:+ download_uri a)%string in
  relevant_archives st now current = pre ++ a :: post ->
  update_loop srv now mirror pre st [] = (Some st', log') ->
  (srv url (headers_for (meta st') url) = ConnectionFailed \/
   exists r, srv url (headers_for (meta st') url) = Responded r /\
             is_http_error (status_code r) = true) ->
  update srv now current mirror st = (None, log' ++ [url]).
Proof.
  intros url Hsegs Hpre Hfail. unfold update. rewrite Hsegs, update_loop_app, Hpre.
  simpl. unfold download. fold url.
  destruct Hfail as [-> | (r & -> & Herr)]; [reflexivity|]. rewrite Herr. reflexivity.
Qed.

Lemma update_aborts_on_failed_segment_witness :
  relevant_archives (mkStore ∅ ∅ default_meta) now0 2026 =
    [] ++ SegYear 2021 :: map SegYear [2022; 2023; 2024; 2025; 2026] ++ [SegModified] /\
  update (server_status 503) now0 2026 mirror0 (mkStore ∅ ∅ default_meta) =
    (None, [] ++ [(mirror0 +:+ download_uri (SegYear 2021))%string]).
Proof.
  split; [reflexivity|].
  apply (update_aborts_on_failed_segment (server_status 503) now0 2026 mirror0
           (mkStore ∅ ∅ default_meta) (mkStore ∅ ∅ default_meta) []
           (map SegYear [2022; 2023; 2024; 2025; 2026] ++ [SegModified]) (SegYear 2021) []);
    [reflexivity | reflexivity |].
  right. eexists. split; reflexivity.
Defined.

(* ------------------------------------------------------------------ *)
(** ** C7: a second sync within the hour *)

(** C7 (as stated): [last_update] only moves on a 200 response.  When
    the single due segment answers 304, the run leaves the store as it
    was, and a second run at the same instant requests it again. *)
Lemma C7_not_modified_run_refetches :
  let st := mkStore ∅ ∅ (mkMeta 0 (now0 - 7200) None) in
  let u := (mirror0 +:+ "nvdcve-1.1-modified.json.gz")%string in
  update (server_status 304) now0 2026 mirror0 st = (Some st, [u]) /\
  update (server_status 304) now0 2026 mirror0 st = (Some st, [u]).
Proof. split; reflexivity. Qed.

(** C7 (amended): (1) when a run completes and the request it sent for
    some due segment (with the [If-None-Match] header of the metadata at
    that point) answered 200, a second run started less than one hour
    later requests nothing and leaves the store exactly as the first run
    left it (records, index and metadata).  (2) When every request of a
    run answered a status that is neither an HTTP error nor 200 (such as
    304), the run requests each due segment once, leaves records and
    metadata as they were ([last_update] is not advanced), and a second
    run at the same or any later time requests those segments again. *)
Theorem second_update_within_hour_is_noop :
  (forall (srv srv' : server) (now now' current : Z) (mirror : string)
     (st s1 st_a : Store) (log1 log_a : list string) (pre post : list segment)
     (a : segment) (r : Response),
    update srv now current mirror st = (Some s1, log1) ->
    relevant_archives st now current = pre ++ a :: post ->
    update_loop srv now mirror pre st [] = (Some st_a, log_a) ->
    srv (seg_url mirror a) (headers_for (meta st_a) (seg_url mirror a)) = Responded r ->
    status_code r = 200 ->
    now' < now + 3600 ->
    update srv' now' current mirror s1 = (Some s1, [])) /\
  (forall (srv : server) (now now' current : Z) (mirror : string) (st : Store),
    all_not_modified srv mirror (meta st) (relevant_archives st now current) ->
    now <= now' ->
    update srv now current mirror st =
      (Some (reindex st), map (seg_url mirror) (relevant_archives st now current)) /\
    advisory (reindex st) = advisory st /\ meta (reindex st) = meta st /\
    incl (relevant_archives st now current) (relevant_archives (reindex st) now' current)).
Proof.
  split.
  - intros srv srv' now now' current mirror st s1 st_a log1 log_a pre post a r
      H1 Hsegs Hpre Hsrv Hst Hnow.
    unfold update in H1.
    destruct (update_loop srv now mirror (relevant_archives st now current) st [])
      as [[st'|] log'] eqn:E; inversion H1; subst; clear H1.
    rewrite Hsegs in E.
    pose proof (update_loop_sets_now_at _ _ _ _ _ _ _ _ _ _ _ _ _ Hpre Hsrv Hst E) as Hlu.
    unfold update, relevant_archives. simpl. rewrite Hlu.
    destruct (Z.ltb_spec (now' - 3600) now); [|lia].
    reflexivity.
  - intros srv now now' current mirror st Hnm Hle.
    split; [|split; [reflexivity|split; [reflexivity|]]].
    + unfold update. rewrite (update_loop_not_modified _ _ _ _ _ _ Hnm). reflexivity.
    + change (relevant_archives (reindex st) now' current)
        with (relevant_archives st now' current).
      apply relevant_archives_mono. exact Hle.
Qed.

(** A mirror that honours [If-None-Match]: 304 for the tag ["abc"],
    otherwise 200 with that tag and no items. *)
Definition etag_server : server :=
  fun _ h =>
    match h with
    | Some t => if String.eqb t "abc" then Responded (mkResponse 304 (Some []) None)
                else Responded (mkResponse 200 (Some []) (Some "abc"))
    | None => Responded (mkResponse 200 (Some []) (Some "abc"))
    end.

Lemma second_update_within_hour_is_noop_witness :
  let st := mkStore ∅ ∅ (mkMeta 0 (now0 - 7200) None) in
  let u := seg_url mirror0 SegModified in
  let st304 := mkStore ∅ ∅ (mkMeta 0 (now0 - 7200) (Some {[u := "abc"]})) in
  (exists s1 log1, update etag_server now0 2026 mirror0 st = (Some s1, log1) /\
    update etag_server (now0 + 60) 2026 mirror0 s1 = (Some s1, [])) /\
 update etag_server now0 2026 mirror0 st304 = (Some (reindex st304), [u]) /\
 incl [SegModified] (relevant_archives (reindex st304) (now0 + 60) 2026).
Proof.
  split; [|split].
  - eexists. eexists. split; [reflexivity|].
    eapply (proj1 second_update_within_hour_is_noop etag_server etag_server
             now0 (now0 + 60) 2026 mirror0 (mkStore ∅ ∅ (mkMeta 0 (now0 - 7200) None))
             _ (mkStore ∅ ∅ (mkMeta 0 (now0 - 7200) None)) _ [] [] [] SegModified
             (mkResponse 200 (Some []) (Some "abc")));
      [reflexivity | reflexivity | reflexivity | reflexivity | reflexivity | unfold now0; lia].
  - apply (proj2 second_update_within_hour_is_noop etag_server now0 (now0 + 60) 2026 mirror0
             (mkStore ∅ ∅ (mkMeta 0 (now0 - 7200)
                (Some {[seg_url mirror0 SegModified := "abc"]}))));
      [|unfold now0; lia].
    intros b Hb. simpl in Hb. destruct Hb as [<-|[]].
    eexists. split; [reflexivity|]. split; [reflexivity|discriminate].
  - apply (proj2 second_update_within_hour_is_noop etag_server now0 (now0 + 60) 2026 mirror0
             (mkStore ∅ ∅ (mkMeta 0 (now0 - 7200)
                (Some {[seg_url mirror0 SegModified := "abc"]}))));
      [|unfold now0; lia].
    intros b Hb. simpl in Hb. destruct Hb as [<-|[]].
    eexists. split; [reflexivity|]. split; [reflexivity|discriminate].
Defined.

(* ------------------------------------------------------------------ *)
(** ** [NVD.add] and [NVD.reindex] *)

Lemma fold_insert_notin (l : list (string * Vulnerability)) (m0 : gmap string Vulnerability)
    (id : string) :
  id ∉ l.*1 ->
  fold_left (fun advs '(k, adv) => <[k := adv]> advs) l m0 !! id = m0 !! id.
Proof.
  revert m0. induction l as [|[k w] l IH]; simpl; intros m0 Hid; [reflexivity|].
  apply not_elem_of_cons in Hid as [Hk Hl].
  rewrite (IH _ Hl). apply lookup_insert_ne. intros ->. apply Hk. reflexivity.
Qed.

Lemma fold_insert_in (l : list (string * Vulnerability)) (m0 : gmap string Vulnerability)
    (id : string) (v : Vulnerability) :
  NoDup l.*1 -> (id, v) ∈ l ->
  fold_left (fun advs '(k, adv) => <[k := adv]> advs) l m0 !! id = Some v.
Proof.
  revert m0. induction l as [|[k w] l IH]; simpl; intros m0 Hnd Hin.
  - apply elem_of_nil in Hin. contradiction.
  - apply NoDup_cons in Hnd as [Hk Hnd].
    apply elem_of_cons in Hin as [Heq|Hin].
    + inversion Heq; subst. rewrite (fold_insert_notin _ _ _ Hk). apply lookup_insert_eq.
    + exact (IH _ Hnd Hin).
Qed.

Lemma add_lookup_new (arch : gmap string Vulnerability) (st : Store) id v :
  arch !! id = Some v -> advisory (add arch st) !! id = Some v.
Proof.
  intros H. unfold add. simpl. apply fold_insert_in.
  - apply NoDup_fst_map_to_list.
  - apply elem_of_map_to_list. exact H.
Qed.

Definition node_count (v : Vulnerability) (p : string) : nat :=
  count_occ string_dec (map product (nodes v)) p.

Lemma index_vuln_get bp v p :
  default [] (index_vuln bp v !! p) = default [] (bp !! p) ++ repeat v (node_count v p).
Proof.
  unfold index_vuln, node_count. generalize (map product (nodes v)) as prods.
  intros prods. revert bp. induction prods as [|q prods IH]; simpl; intros bp.
  - rewrite app_nil_r. reflexivity.
  - rewrite IH. destruct (string_dec q p) as [<-|Hne].
    + rewrite lookup_insert_eq. simpl. rewrite <- app_assoc. reflexivity.
    + rewrite lookup_insert_ne by exact Hne. reflexivity.
Qed.

Lemma build_index_get L p :
  default [] (build_index L !! p) = flat_map (fun v => repeat v (node_count v p)) L.
Proof.
  unfold build_index.
  change (flat_map (fun v => repeat v (node_count v p)) L)
    with (default [] ((∅ : gmap string (list Vulnerability)) !! p)
          ++ flat_map (fun v => repeat v (node_count v p)) L).
  generalize (∅ : gmap string (list Vulnerability)) as bp.
  induction L as [|v L IH]; simpl; intros bp.
  - rewrite app_nil_r. reflexivity.
  - rewrite IH, index_vuln_get, app_assoc. reflexivity.
Qed.

Lemma by_product_default st p : by_product st p = default [] (by_product_idx st !! p).
Proof. unfold by_product. destruct (by_product_idx st !! p); reflexivity. Qed.

(* ------------------------------------------------------------------ *)
(** ** C8: upsert by id and the rebuilt index *)

(** C8 (as stated): the rebuilt index can list a record more than once
    under one product: a record naming product [p] in two nodes is
    listed twice under [p]. *)
Lemma C8_index_lists_record_twice :
  by_product (reindex store_twice) "p" = [vuln_twice; vuln_twice] /\
  ~ NoDup (by_product (reindex store_twice) "p").
Proof.
  split; [reflexivity|].
  change (by_product (reindex store_twice) "p") with [vuln_twice; vuln_twice].
  intros H. apply NoDup_cons in H as [H _]. apply H. apply list_elem_of_here.
Qed.

(** C8 (amended): ingesting two archives that both carry an id leaves
    the record of the later one under that id; after [NVD.reindex] the
    list under a product is built from the stored records only: each
    stored record appears once per node of it that names the product
    (so a record may appear several times), and a record is in the list
    exactly when it is stored and names the product in some node. *)
Theorem ingest_keeps_latest_and_reindex_exact :
  (forall (st : Store) (arch1 arch2 : gmap string Vulnerability) (id : string)
          (v1 v2 : Vulnerability),
      arch1 !! id = Some v1 -> arch2 !! id = Some v2 ->
      advisory (add arch2 (add arch1 st)) !! id = Some v2) /\
  (forall (st : Store) (p : string),
      by_product (reindex st) p =
        flat_map (fun v => repeat v (node_count v p)) (map snd (map_to_list (advisory st)))) /\
  (forall (st : Store) (p : string) (v : Vulnerability),
      In v (by_product (reindex st) p) <->
      (exists id, advisory st !! id = Some v) /\ In p (map product (nodes v))).
Proof.
  assert (Hidx : forall (st : Store) (p : string),
      by_product (reindex st) p =
        flat_map (fun v => repeat v (node_count v p)) (map snd (map_to_list (advisory st))))
    by (intros st p; rewrite by_product_default; apply build_index_get).
  split; [|split; [exact Hidx|]].
  - intros st arch1 arch2 id v1 v2 _ H2. apply add_lookup_new. exact H2.
  - intros st p v. rewrite Hidx, in_flat_map. split.
    + intros (w & Hw & Hv).
      apply repeat_spec in Hv as Heq. subst w.
      apply in_map_iff in Hw as ([id w] & Hw & Hin). simpl in Hw. subst w.
      split.
      * exists id. apply elem_of_map_to_list, list_elem_of_In. exact Hin.
      * apply (count_occ_In string_dec). unfold node_count in Hv.
        destruct (count_occ string_dec (map product (nodes v)) p); simpl in Hv; [contradiction | lia].
    + intros [(id & Hid) Hp]. exists v. split.
      * apply in_map_iff. exists (id, v). split; [reflexivity|].
        apply list_elem_of_In, elem_of_map_to_list. exact Hid.
      * apply (count_occ_In string_dec) in Hp. unfold node_count.
        destruct (count_occ string_dec (map product (nodes v)) p); [lia | left; reflexivity].
Qed.

Lemma ingest_keeps_latest_and_reindex_exact_witness :
  advisory (add {[ "CVE-2021-0001" := vuln_twice ]}
              (add {[ "CVE-2021-0001" := mkVuln "CVE-2021-0001" [] ]} store_twice))
    !! "CVE-2021-0001" = Some vuln_twice.
Proof.
  apply (proj1 ingest_keeps_latest_and_reindex_exact store_twice
           {[ "CVE-2021-0001" := mkVuln "CVE-2021-0001" [] ]}
           {[ "CVE-2021-0001" := vuln_twice ]} "CVE-2021-0001"
           (mkVuln "CVE-2021-0001" []) vuln_twice); reflexivity.
Defined.

(* ------------------------------------------------------------------ *)
(** ** [Meta.should_pack] over consecutive sessions *)

Lemma clean_sessions_S n st :
  clean_sessions (S n) st =
    (fst (nvd_exit_clean st) :: fst (clean_sessions n (snd (nvd_exit_clean st))),
     snd (clean_sessions n (snd (nvd_exit_clean st)))).
Proof. simpl. destruct (nvd_exit_clean st), (clean_sessions n _); reflexivity. Qed.

Lemma nvd_exit_clean_counter st c :
  pack_counter (meta st) = Z.of_nat c -> (c <= 25)%nat ->
  (fst (nvd_exit_clean st) = Nat.eqb c 25) /\
  (pack_counter (meta (snd (nvd_exit_clean st))) =
    Z.of_nat (if Nat.eqb c 25 then 0%nat else S c)).
Proof.
  intros Hc Hle. unfold nvd_exit_clean, should_pack. rewrite Hc.
  destruct (Nat.eqb_spec c 25) as [->|Hne].
  - split; reflexivity.
  - assert (Hlt : Z.ltb 25 (Z.of_nat c + 1) = false) by (apply Z.ltb_ge; lia).
    rewrite Hlt. simpl. split; [reflexivity | lia].
Qed.

Lemma clean_sessions_nth n st c k :
  pack_counter (meta st) = Z.of_nat c -> (c <= 25)%nat -> (k < n)%nat ->
  nth k (fst (clean_sessions n st)) false = Nat.eqb ((c + k + 1) mod 26) 0.
Proof.
  revert st c k. induction n as [|n IH]; intros st c k Hc Hle Hk; [lia|].
  rewrite clean_sessions_S. simpl fst.
  destruct (nvd_exit_clean_counter st c Hc Hle) as [Hp Hc'].
  destruct k as [|k].
  - cbn [nth]. rewrite Hp. destruct (Nat.eqb_spec c 25) as [->|Hne]; [reflexivity|].
    rewrite Nat.mod_small by lia. symmetry. apply Nat.eqb_neq. lia.
  - cbn [nth]. rewrite (IH _ _ k Hc'); [| destruct (Nat.eqb_spec c 25); lia | lia].
    destruct (Nat.eqb_spec c 25) as [->|Hne].
    + replace (25 + S k + 1)%nat with ((0 + k + 1) + 1 * 26)%nat by lia.
      rewrite Nat.Div0.mod_add. reflexivity.
    + f_equal. f_equal. lia.
Qed.

Lemma clean_sessions_counter n st c :
  pack_counter (meta st) = Z.of_nat c -> (c <= 25)%nat ->
  pack_counter (meta (snd (clean_sessions n st))) = Z.of_nat ((c + n) mod 26).
Proof.
  revert st c. induction n as [|n IH]; intros st c Hc Hle.
  - cbn [clean_sessions snd]. rewrite Nat.add_0_r, Nat.mod_small by lia. exact Hc.
  - rewrite clean_sessions_S. simpl snd.
    destruct (nvd_exit_clean_counter st c Hc Hle) as [_ Hc'].
    rewrite (IH _ _ Hc'); [| destruct (Nat.eqb_spec c 25); lia].
    destruct (Nat.eqb_spec c 25) as [->|Hne].
    + replace (25 + S n)%nat with ((0 + n) + 1 * 26)%nat by lia.
      rewrite Nat.Div0.mod_add. reflexivity.
    + f_equal. f_equal. lia.
Qed.

Lemma clean_sessions_content n st :
  advisory (snd (clean_sessions n st)) = advisory st /\
  by_product_idx (snd (clean_sessions n st)) = by_product_idx st.
Proof.
  revert st. induction n as [|n IH]; intros st; simpl; [split; reflexivity|].
  unfold nvd_exit_clean. destruct (should_pack (meta st)) as [p m].
  destruct (clean_sessions n (set_meta st m)) as [ps st2] eqn:E. simpl.
  pose proof (IH (set_meta st m)) as [Ha Hb]. rewrite E in Ha, Hb. simpl in Ha, Hb.
  split; assumption.
Qed.

(* ------------------------------------------------------------------ *)
(** ** C9: periodic packing *)

(** C9 (as stated): starting from the class default counter 0, the 25th
    clean session does not pack; the first packing is at the 26th. *)
Lemma C9_no_pack_at_25th_session :
  let st := mkStore ∅ ∅ default_meta in
  fst (clean_sessions 25%nat st) = repeat false 25%nat /\
  nth 25%nat (fst (clean_sessions 26%nat st)) false = true.
Proof. split; reflexivity. Qed.

(** C9 (amended): each clean session increments the counter, and when
    it exceeds 25 it is reset to 0 and the database is packed.  Starting
    from 0, the k-th clean session packs exactly when k is a multiple of
    26, the counter after n sessions is n mod 26, and the sessions'
    ends leave the stored records and the product index unchanged. *)
Theorem pack_every_26th_clean_session :
  (forall (n k : nat) (st : Store),
      pack_counter (meta st) = 0 -> (1 <= k <= n)%nat ->
      nth (k - 1) (fst (clean_sessions n st)) false = Nat.eqb (k mod 26) 0) /\
  (forall (n : nat) (st : Store),
      pack_counter (meta st) = 0 ->
      pack_counter (meta (snd (clean_sessions n st))) = Z.of_nat (n mod 26)) /\
  (forall (n : nat) (st : Store),
      advisory (snd (clean_sessions n st)) = advisory st /\
      by_product_idx (snd (clean_sessions n st)) = by_product_idx st).
Proof.
  split; [|split; [|exact clean_sessions_content]].
  - intros n k st H0 Hk.
    rewrite (clean_sessions_nth n st 0 (k - 1)); [|exact H0 | lia | lia].
    f_equal. f_equal. lia.
  - intros n st H0. exact (clean_sessions_counter n st 0 H0 ltac:(lia)).
Qed.

Lemma pack_every_26th_clean_session_witness :
  nth 25%nat (fst (clean_sessions 30%nat (mkStore ∅ ∅ default_meta))) false = true.
Proof.
  apply (proj1 pack_every_26th_clean_session 30%nat 26%nat (mkStore ∅ ∅ default_meta));
    [reflexivity | lia].
Defined.

(* ================================================================== *)
(** * Further properties of the sources *)

(* ------------------------------------------------------------------ *)
(** ** The parts [split_name] returns *)

Lemma is_lower_ascii_lower c : is_lower (ascii_lower c) = true.
Proof. destruct c as [[] [] [] [] [] [] [] []]; reflexivity. Qed.

Lemma all_lower_str_lower s : all_chars is_lower (str_lower s) = true.
Proof. induction s as [|c s IH]; simpl; [reflexivity|]. now rewrite is_lower_ascii_lower, IH. Qed.

Lemma all_chars_substring p s n :
  all_chars p s = true -> all_chars p (substring 0 n s) = true.
Proof.
  revert n. induction s as [|c s IH]; intros n H; destruct n; simpl in *; try reflexivity.
  apply andb_prop in H as [Hc Hs]. now rewrite Hc, IH.
Qed.

Lemma all_lower_lower_strip_drv s : all_chars is_lower (lower_strip_drv s) = true.
Proof.
  unfold lower_strip_drv. destruct (ends_with _ _);
    [apply all_chars_substring|]; apply all_lower_str_lower.
Qed.

Lemma str_lower_id s : all_chars is_lower s = true -> str_lower s = s.
Proof.
  induction s as [|c s IH]; simpl; [reflexivity|].
  intros H. apply andb_prop in H as [Hc Hs]. unfold is_lower in Hc.
  apply Ascii.eqb_eq in Hc. now rewrite Hc, IH.
Qed.

(** X1: when [split_name] finds a version, the lower-cased name without
    [.drv] is the product name, a dash and the version, possibly
    followed by one final newline (which [$] lets through).  The product
    name is non-empty, the version starts with a digit, neither
    contains whitespace, and both are lower case. *)
Theorem split_name_parts (s p v : string) :
  split_name s = (p, Some v) ->
  (lower_strip_drv s = p +:+ "-" +:+ v \/ lower_strip_drv s = p +:+ "-" +:+ v +:+ newline) /\
  p <> EmptyString /\ starts_with_digit v = true /\
  all_chars not_space (p +:+ v) = true /\ str_lower p = p /\ str_lower v = v.
Proof.
  unfold split_name. pose proof (all_lower_lower_strip_drv s) as Hlow.
  destruct (r_version_match (lower_strip_drv s)) as [[g1 g2]|] eqn:E;
    intros H; inversion H; subst p v; clear H.
  destruct (r_version_match_spec _ _ _ E) as (t & Hs & Ht & Hg1 & Hd & Hn1 & Hn2).
  rewrite Hs in Hlow. rewrite all_chars_app in Hlow. simpl in Hlow.
  apply andb_prop in Hlow as [Hl1 Hl2].
  rewrite all_chars_app in Hl2. apply andb_prop in Hl2 as [Hl2 _].
  split; [|split; [exact Hg1|split; [exact Hd|split]]].
  - rewrite Hs. destruct (dollar_ok_spec _ Ht) as [->| ->].
    + left. simpl. now rewrite str_app_nil_r.
    + right. reflexivity.
  - rewrite all_chars_app, Hn1, Hn2. reflexivity.
  - split; apply str_lower_id; assumption.
Qed.

Lemma split_name_parts_witness :
  split_name ("Foo-1.0" +:+ newline) = ("foo", Some "1.0") /\
  lower_strip_drv ("Foo-1.0" +:+ newline) = "foo" +:+ "-" +:+ "1.0" +:+ newline.
Proof.
  split; [reflexivity|].
  destruct (split_name_parts ("Foo-1.0" +:+ newline) "foo" "1.0" eq_refl) as [[H|H] _];
    [discriminate H | exact H].
Defined.

(* ------------------------------------------------------------------ *)
(** ** [Derive.__lt__] on its own *)

Lemma str_lt_irrefl s : str_lt s s = false.
Proof. induction s as [|c s IH]; simpl; [reflexivity|]. now rewrite Nat.ltb_irrefl. Qed.

Lemma str_lt_trans a b c : str_lt a b = true -> str_lt b c = true -> str_lt a c = true.
Proof.
  revert b c. induction a as [|x a IH]; intros [|y b] [|z c]; simpl; try congruence.
  destruct (Nat.ltb_spec (nat_of_ascii x) (nat_of_ascii y));
  destruct (Nat.ltb_spec (nat_of_ascii y) (nat_of_ascii x));
  destruct (Nat.ltb_spec (nat_of_ascii y) (nat_of_ascii z));
  destruct (Nat.ltb_spec (nat_of_ascii z) (nat_of_ascii y));
  destruct (Nat.ltb_spec (nat_of_ascii x) (nat_of_ascii z));
  destruct (Nat.ltb_spec (nat_of_ascii z) (nat_of_ascii x));
  intros; try lia; try congruence; eauto.
Qed.

Lemma str_lt_total a b : str_lt a b = false -> str_lt b a = false -> a = b.
Proof.
  revert b. induction a as [|x a IH]; intros [|y b]; simpl; try congruence.
  destruct (Nat.ltb_spec (nat_of_ascii x) (nat_of_ascii y)); [congruence|].
  destruct (Nat.ltb_spec (nat_of_ascii y) (nat_of_ascii x)); [congruence|].
  intros H1 H2. assert (Hxy : x = y).
  { rewrite <- (ascii_nat_embedding x), <- (ascii_nat_embedding y). f_equal. lia. }
  subst y. f_equal. apply IH; assumption.
Qed.

Lemma cmp_plain_lt u v : cmp_plain u v = -1 <-> str_lt u v = true.
Proof.
  unfold cmp_plain. destruct (String.eqb_spec u v) as [<-|Hne].
  - rewrite str_lt_irrefl. split; discriminate.
  - destruct (str_lt u v); split; congruence.
Qed.

Lemma cmp_plain_irrefl v : cmp_plain v v <> -1.
Proof. rewrite cmp_plain_lt, str_lt_irrefl. discriminate. Qed.

Lemma cmp_plain_trans u v w :
  cmp_plain u v = -1 -> cmp_plain v w = -1 -> cmp_plain u w = -1.
Proof. rewrite !cmp_plain_lt. apply str_lt_trans. Qed.

(** X3: [Derive.__lt__] by itself is a strict order (irreflexive and
    transitive), lexicographic on [(pname, version)], whenever
    [compare_versions] answering [-1] is irreflexive and transitive. *)
Theorem derive_lt_strict_order (compare_versions : string -> string -> Z) :
  (forall v, compare_versions v v <> -1) ->
  (forall u v w, compare_versions u v = -1 -> compare_versions v w = -1 ->
                 compare_versions u w = -1) ->
  (forall a, derive_lt compare_versions a a = false) /\
  (forall a b c, derive_lt compare_versions a b = true ->
                 derive_lt compare_versions b c = true ->
                 derive_lt compare_versions a c = true).
Proof.
  intros Hirr Htr. split.
  - intros a. unfold derive_lt, str_gt. rewrite str_lt_irrefl.
    apply Z.eqb_neq. apply Hirr.
  - intros [na pa va ta] [nb pb vb tb] [nc pc vc tc]. unfold derive_lt, str_gt. simpl.
    destruct (str_lt pa pb) eqn:Hab.
    + intros _. destruct (str_lt pb pc) eqn:Hbc.
      * rewrite (str_lt_trans _ _ _ Hab Hbc). reflexivity.
      * destruct (str_lt pc pb) eqn:Hcb; [discriminate|].
        rewrite (str_lt_total _ _ Hbc Hcb) in Hab. rewrite Hab. reflexivity.
    + destruct (str_lt pb pa) eqn:Hba; [discriminate|].
      pose proof (str_lt_total _ _ Hab Hba) as <-.
      intros Hv.
      destruct (str_lt pa pc) eqn:Hac; [reflexivity|].
      destruct (str_lt pc pa) eqn:Hca; [discriminate|].
      intros Hv'. apply Z.eqb_eq in Hv, Hv'. apply Z.eqb_eq. eauto.
Qed.

Lemma derive_lt_strict_order_witness :
  let a := mkDerive "foo-1.0" "foo" "1.0" EmptyString in
  let b := mkDerive "foo-1.1" "foo" "1.1" EmptyString in
  let c := mkDerive "foo-1.2" "foo" "1.2" EmptyString in
  derive_lt cmp_plain b b = false /\ derive_lt cmp_plain a c = true.
Proof.
  intros a b c.
  destruct (derive_lt_strict_order cmp_plain cmp_plain_irrefl cmp_plain_trans) as [Hirr Htr].
  split; [apply Hirr|].
  apply (Htr a b c); reflexivity.
Defined.

(* ------------------------------------------------------------------ *)
(** ** [Derive.product_candidates] *)

Lemma replace_dash_no_dash s : all_chars not_dash (str_replace_char "-" "_" s) = true.
Proof.
  induction s as [|c s IH]; simpl; [reflexivity|]. rewrite IH.
  destruct (Ascii.eqb c "-") eqn:Hc; [reflexivity|]. unfold not_dash. now rewrite Hc.
Qed.

Lemma string_eqb_cons a b x y :
  String.eqb (String a x) (String b y) = (Ascii.eqb a b && String.eqb x y)%bool.
Proof. reflexivity. Qed.

Lemma replace_dash_id s :
  String.eqb (str_replace_char "-" "_" s) s = all_chars not_dash s.
Proof.
  induction s as [|c s IH]; [reflexivity|].
  cbn [str_replace_char all_chars]. rewrite string_eqb_cons, IH. unfold not_dash.
  destruct (Ascii.eqb c "-") eqn:Hc.
  - apply Ascii.eqb_eq in Hc. subst c. reflexivity.
  - rewrite Ascii.eqb_refl. reflexivity.
Qed.

(** X4: the product candidates are duplicate-free and start with the
    product name; a second candidate exists exactly when the product
    name contains a dash, and it contains no dash. *)
Theorem product_candidates_shape (d : Derive) :
  NoDup (product_candidates d) /\
  head (product_candidates d) = Some (pname d) /\
  (length (product_candidates d) = 2%nat <-> all_chars not_dash (pname d) = false) /\
  (forall c, In c (tail (product_candidates d)) -> all_chars not_dash c = true).
Proof.
  unfold product_candidates. rewrite replace_dash_id.
  destruct (all_chars not_dash (pname d)) eqn:Hd; simpl.
  - split; [apply NoDup_singleton|]. split; [reflexivity|].
    split; [split; discriminate | intros c []].
  - split.
    + apply NoDup_cons. split; [|apply NoDup_singleton].
      intros Hin. apply list_elem_of_singleton in Hin.
      pose proof (replace_dash_no_dash (pname d)) as H. rewrite <- Hin, Hd in H. discriminate.
    + split; [reflexivity|]. split; [split; reflexivity|].
      intros c [<-|[]]. apply replace_dash_no_dash.
Qed.

(* ------------------------------------------------------------------ *)
(** ** [Derive.applied_patches] *)

Lemma ascii_upper_idem c : ascii_upper (ascii_upper c) = ascii_upper c.
Proof. destruct c as [[] [] [] [] [] [] [] []]; reflexivity. Qed.

Lemma ascii_upper_digit d : is_digit d = true -> ascii_upper d = d.
Proof. destruct d as [[] [] [] [] [] [] [] []]; vm_compute; congruence. Qed.

Lemma is_digit_upper d : is_digit (ascii_upper d) = is_digit d.
Proof. destruct d as [[] [] [] [] [] [] [] []]; reflexivity. Qed.

Lemma str_upper_idem s : str_upper (str_upper s) = str_upper s.
Proof. induction s as [|c s IH]; simpl; [reflexivity|]. now rewrite ascii_upper_idem, IH. Qed.

Lemma str_upper_digits s : all_chars is_digit s = true -> str_upper s = s.
Proof.
  induction s as [|c s IH]; simpl; [reflexivity|].
  intros H. apply andb_prop in H as [Hc Hs]. now rewrite ascii_upper_digit, IH.
Qed.

Lemma digit_run_all s : all_chars is_digit s = true -> digit_run s = (s, EmptyString).
Proof.
  induction s as [|c s IH]; simpl; [reflexivity|].
  intros H. apply andb_prop in H as [Hc Hs]. now rewrite Hc, IH.
Qed.

Lemma r_cve_match_upper s m rest :
  r_cve_match s = Some (m, rest) -> cve_fullmatch (str_upper m) = true.
Proof.
  destruct s as [|c1 [|c2 [|c3 [|c4 [|d1 [|d2 [|d3 [|d4 [|c5 r]]]]]]]]];
    simpl; try discriminate.
  destruct_if; [|discriminate].
  destruct (digit_run r) as [ds rest'] eqn:E.
  destruct (digit_run_spec _ _ _ E) as [_ Hd].
  destruct ds as [|x ds]; [discriminate|]. intros Hs; inversion Hs; subst m rest'.
  clear Hs E. simpl in Hd. apply andb_prop in Hd as [Hx Hds].
  repeat match goal with H : (_ && _)%bool = true |- _ => apply andb_prop in H as [? ?] end.
  repeat match goal with H : Ascii.eqb ?c "-"%char = true |- _ =>
    apply Ascii.eqb_eq in H; subst c end.
  unfold cve_fullmatch. simpl str_upper.
  rewrite (str_upper_digits ds Hds).
  repeat match goal with H : is_digit ?d = true |- context [ascii_upper ?d] =>
    rewrite (ascii_upper_digit d H) end.
  cbn [r_cve_match]. unfold ci_eq in *. rewrite !ascii_upper_idem.
  repeat match goal with H : ?b = true |- context [?b] => rewrite H end.
  assert (Hall : all_chars is_digit (String x ds) = true) by (simpl; rewrite Hx, Hds; reflexivity).
  change (ascii_upper "-") with "-"%char. simpl Ascii.eqb. simpl andb.
  rewrite (digit_run_all _ Hall). reflexivity.
Qed.

Lemma cve_scan_upper f s m :
  In m (cve_scan f s) -> cve_fullmatch (str_upper m) = true.
Proof.
  revert s. induction f as [|f IH]; intros s Hin; [simpl in Hin; contradiction|].
  destruct s as [|c s]; [simpl in Hin; contradiction|].
  rewrite cve_scan_S in Hin by discriminate.
  destruct (r_cve_match (String c s)) as [[m' rest]|] eqn:E.
  - destruct Hin as [<-|Hin]; [exact (r_cve_match_upper _ _ _ E) | exact (IH _ Hin)].
  - exact (IH _ Hin).
Qed.

(** X5: every id [Derive.applied_patches] returns is a whole match of
    [CVE-\d{4}-\d+] written in upper case. *)
Theorem applied_patches_sound (d : Derive) (x : string) :
  In x (applied_patches d) -> cve_fullmatch x = true /\ str_upper x = x.
Proof.
  unfold applied_patches. intros Hin. apply in_map_iff in Hin as (m & <- & Hm).
  split; [exact (cve_scan_upper _ _ _ Hm) | apply str_upper_idem].
Qed.

Lemma applied_patches_sound_witness :
  applied_patches (mkDerive "foo-1.0" "foo" "1.0" "fix-cve-2021-3156.patch") = ["CVE-2021-3156"] /\
  cve_fullmatch "CVE-2021-3156" = true.
Proof.
  split; [reflexivity|].
  apply (applied_patches_sound (mkDerive "foo-1.0" "foo" "1.0" "fix-cve-2021-3156.patch")).
  vm_compute. left. reflexivity.
Defined.

(* ------------------------------------------------------------------ *)
(** ** [NVD.affected] and [Derive.check] *)

Lemma set_add_In_iff x v s : In x (set_add v s) <-> x = v \/ In x s.
Proof.
  split; [apply set_add_In|]. unfold set_add.
  destruct (decide (v ∈ s)) as [Hv|Hv].
  - intros [->|H]; [apply list_elem_of_In; exact Hv | exact H].
  - intros [->|H]; apply in_or_app; [right; left; reflexivity | left; exact H].
Qed.

Section AffectedFacts.
Variable compare_versions : string -> string -> Z.

Lemma affected_fold_In pn v l acc x :
  In x (fold_left (fun res vuln =>
          if vuln_match compare_versions vuln pn v then set_add vuln res else res) l acc) <->
  In x acc \/ (In x l /\ vuln_match compare_versions x pn v = true).
Proof.
  revert acc. induction l as [|y l IH]; intros acc; simpl.
  - split; [auto | intros [H|[[] _]]; exact H].
  - rewrite IH. destruct (vuln_match compare_versions y pn v) eqn:Hy.
    + rewrite set_add_In_iff. split.
      * intros [[->|H]|[H Hm]]; auto.
      * intros [H|[[<-|H] Hm]]; auto.
    + split.
      * intros [H|[H Hm]]; auto.
      * intros [H|[[<-|H] Hm]]; [auto | congruence | auto].
Qed.

Lemma affected_In st pn v x :
  In x (affected compare_versions st pn v) <->
  In x (by_product st pn) /\ vuln_match compare_versions x pn v = true.
Proof.
  unfold affected. rewrite affected_fold_In. split; [intros [[]|H]; exact H | auto].
Qed.

Lemma check_candidate_In patched st pn v acc x :
  In x (check_candidate compare_versions patched st pn v acc) <->
  In x acc \/ (In x (affected compare_versions st pn v) /\ cve_id x ∉ patched).
Proof.
  unfold check_candidate. generalize (affected compare_versions st pn v) as l. intros l.
  revert acc. induction l as [|y l IH]; intros acc; simpl.
  - split; [auto | intros [H|[[] _]]; exact H].
  - rewrite IH. destruct (decide (cve_id y ∈ patched)) as [Hy|Hy].
    + split.
      * intros [H|[H Hm]]; auto.
      * intros [H|[[<-|H] Hm]]; [auto | contradiction | auto].
    + rewrite set_add_In_iff. split.
      * intros [[->|H]|[H Hm]]; auto.
      * intros [H|[[<-|H] Hm]]; auto.
Qed.

Lemma check_candidate_NoDup patched st pn v acc :
  NoDup acc -> NoDup (check_candidate compare_versions patched st pn v acc).
Proof.
  unfold check_candidate. generalize (affected compare_versions st pn v) as l. intros l.
  revert acc. induction l as [|y l IH]; intros acc Hacc; simpl; [exact Hacc|].
  apply IH. destruct (decide _); [exact Hacc | apply set_add_NoDup; exact Hacc].
Qed.

Lemma check_loop_sound (P : Vulnerability -> Prop) patched st v cands acc :
  (forall pn x, In pn cands -> In x (affected compare_versions st pn v) ->
                cve_id x ∉ patched -> P x) ->
  NoDup acc -> (forall x, In x acc -> P x) ->
  NoDup (check_loop compare_versions patched st v cands acc) /\
  (forall x, In x (check_loop compare_versions patched st v cands acc) -> P x).
Proof.
  revert acc. induction cands as [|pn cands IH]; intros acc HP Hnd Hacc; simpl; [auto|].
  assert (Hc : NoDup (check_candidate compare_versions patched st pn v acc) /\
               forall x, In x (check_candidate compare_versions patched st pn v acc) -> P x).
  { split; [apply check_candidate_NoDup; exact Hnd|].
    intros x Hx. apply check_candidate_In in Hx as [Hx|[Hx Hp]]; [auto|].
    apply (HP pn); [left; reflexivity | assumption..]. }
  destruct (check_candidate compare_versions patched st pn v acc) as [|y l] eqn:E; [|exact Hc].
  apply IH; [intros pn' x Hin; apply HP; right; exact Hin | apply Hc | apply Hc].
Qed.
End AffectedFacts.

(** X6: [NVD.affected] returns exactly the records listed under the
    product in the index that match the product and version. *)
Theorem affected_members (compare_versions : string -> string -> Z) (st : Store)
    (pn v : string) (x : Vulnerability) :
  In x (affected compare_versions st pn v) <->
  In x (by_product st pn) /\ vuln_match compare_versions x pn v = true.
Proof. apply affected_In. Qed.

(** X7: [Derive.check] never reports a record twice, and every record it
    reports is listed in the index under one of the product candidates,
    matches that candidate and the derivation's version, and is not
    among the patched CVE ids. *)
Theorem check_sound (compare_versions : string -> string -> Z) (d : Derive) (st : Store) :
  NoDup (check compare_versions d st) /\
  (forall x, In x (check compare_versions d st) ->
     exists pn, In pn (product_candidates d) /\ In x (by_product st pn) /\
       vuln_match compare_versions x pn (version d) = true /\
       cve_id x ∉ applied_patches d).
Proof.
  unfold check. apply check_loop_sound; [| apply NoDup_nil_2 | intros x []].
  intros pn x Hpn Hx Hp. apply affected_In in Hx as [Hx Hm].
  exists pn. auto.
Qed.

(* ------------------------------------------------------------------ *)
(** ** [NVD.add] and [Archive.parse] *)

Lemma not_in_fst_map_to_list (arch : gmap string Vulnerability) k :
  arch !! k = None -> k ∉ (map_to_list arch).*1.
Proof.
  intros Hk Hin. apply list_elem_of_fmap in Hin as ([k' w] & Heq & Hin').
  simpl in Heq. subst k'. apply elem_of_map_to_list in Hin'. congruence.
Qed.

Lemma add_advisory_union (arch : gmap string Vulnerability) (st : Store) :
  advisory (add arch st) = arch ∪ advisory st.
Proof.
  apply map_eq. intros k. unfold add. simpl.
  destruct (arch !! k) as [v|] eqn:Hk.
  - rewrite (lookup_union_Some_l _ _ _ _ Hk).
    apply fold_insert_in; [apply NoDup_fst_map_to_list | apply elem_of_map_to_list; exact Hk].
  - rewrite (lookup_union_r _ _ _ Hk). apply fold_insert_notin.
    apply not_in_fst_map_to_list. exact Hk.
Qed.

(** X8: [NVD.add] is a left-biased union: afterwards an id has the
    archive's record when the archive has one and its old record
    otherwise; the product index and the metadata are not touched. *)
Theorem add_is_union (arch : gmap string Vulnerability) (st : Store) :
  advisory (add arch st) = arch ∪ advisory st /\
  by_product_idx (add arch st) = by_product_idx st /\ meta (add arch st) = meta st.
Proof. split; [apply add_advisory_union | split; reflexivity]. Qed.

Lemma parse_fold_keys items (m : gmap string Vulnerability) :
  keys_ok m ->
  keys_ok (fold_left (fun advs it =>
             match it with
             | Some vuln => <[cve_id vuln := vuln]> advs
             | None => advs
             end) items m).
Proof.
  revert m. induction items as [|[w|] items IH]; intros m Hm; simpl; [exact Hm| |apply IH, Hm].
  apply IH. intros k v Hk. destruct (decide (k = cve_id w)) as [->|Hne].
  - rewrite lookup_insert_eq in Hk. inversion Hk. reflexivity.
  - rewrite lookup_insert_ne in Hk by congruence. apply Hm. exact Hk.
Qed.

Lemma parse_fold_from items (m : gmap string Vulnerability) k v :
  fold_left (fun advs it =>
             match it with
             | Some vuln => <[cve_id vuln := vuln]> advs
             | None => advs
             end) items m !! k = Some v ->
  m !! k = Some v \/ In (Some v) items.
Proof.
  revert m. induction items as [|[w|] items IH]; intros m Hk; simpl in *; [auto| |].
  - destruct (IH _ Hk) as [H|H]; [|auto].
    destruct (decide (k = cve_id w)) as [->|Hne].
    + rewrite lookup_insert_eq in H. inversion H. auto.
    + rewrite lookup_insert_ne in H by congruence. auto.
  - destruct (IH _ Hk); auto.
Qed.

Lemma parse_fold_notin items (m : gmap string Vulnerability) k :
  (forall w, In (Some w) items -> cve_id w <> k) ->
  fold_left (fun advs it =>
             match it with
             | Some vuln => <[cve_id vuln := vuln]> advs
             | None => advs
             end) items m !! k = m !! k.
Proof.
  revert m. induction items as [|[w|] items IH]; intros m Hk; simpl; [reflexivity| |].
  - rewrite IH by (intros w' Hw'; apply Hk; right; exact Hw').
    apply lookup_insert_ne. intros Heq. apply (Hk w); [left; reflexivity | auto].
  - apply IH. intros w' Hw'. apply Hk. right. exact Hw'.
Qed.

Lemma parse_keys items : keys_ok (parse items).
Proof. apply parse_fold_keys. intros k v H. rewrite lookup_empty in H. discriminate. Qed.

(** X9: [Archive.parse] stores every parsed record under its own id,
    stores only records of the feed, and for an id that occurs several
    times keeps the last item with that id; items that fail to parse
    are dropped. *)
Theorem parse_last_wins (items : list (option Vulnerability)) :
  keys_ok (parse items) /\
  (forall k v, parse items !! k = Some v -> In (Some v) items) /\
  (forall pre v post, (forall w, In (Some w) post -> cve_id w <> cve_id v) ->
     parse (pre ++ Some v :: post) !! cve_id v = Some v).
Proof.
  split; [apply parse_keys|]. split.
  - intros k v H. destruct (parse_fold_from _ _ _ _ H) as [H'|H']; [|exact H'].
    rewrite lookup_empty in H'. discriminate.
  - intros pre v post Hpost. unfold parse. rewrite fold_left_app. simpl.
    rewrite parse_fold_notin by exact Hpost. apply lookup_insert_eq.
Qed.

(* ------------------------------------------------------------------ *)
(** ** [NVD.update]: what it keeps and what it requests *)

Lemma download_keys srv now mirror a m advs m' :
  download srv now mirror a m = inr (advs, m') -> keys_ok advs.
Proof.
  unfold download. destruct (srv _ _) as [r|]; [|discriminate].
  destruct (is_http_error _); [discriminate|]. destruct (Z.eqb _ _).
  - destruct (match body r with Some its => decode_items its | None => None end);
      intros H; inversion H; subst. apply parse_keys.
  - intros H; inversion H; subst. intros k v Hk. rewrite lookup_empty in Hk. discriminate.
Qed.

Lemma update_loop_keeps srv now mirror segs st log st' log' :
  update_loop srv now mirror segs st log = (Some st', log') ->
  (keys_ok (advisory st) -> keys_ok (advisory st')) /\
  (forall k, is_Some (advisory st !! k) -> is_Some (advisory st' !! k)).
Proof.
  revert st log. induction segs as [|a segs IH]; simpl; intros st log H.
  - inversion H; subst. auto.
  - destruct (download srv now mirror a (meta st)) as [e|[advs m]] eqn:E; [discriminate|].
    destruct (IH _ _ H) as [Hk Hm]. rewrite add_advisory_union in Hk, Hm. simpl in Hk, Hm.
    split.
    + intros Hok. apply Hk. intros k v Hkv. apply lookup_union_Some_raw in Hkv as [Hkv|[_ Hkv]].
      * exact (download_keys _ _ _ _ _ _ _ E k v Hkv).
      * exact (Hok k v Hkv).
    + intros k Hs. apply Hm. rewrite lookup_union. destruct Hs as [x ->].
      destruct (advs !! k); eexists; reflexivity.
Qed.

(** X10: a successful [NVD.update] never removes a stored id, and keeps
    every record stored under its own id. *)
Theorem update_keeps_records (srv : server) (now current : Z) (mirror : string)
    (st st' : Store) (log : list string) :
  update srv now current mirror st = (Some st', log) ->
  (keys_ok (advisory st) -> keys_ok (advisory st')) /\
  (forall k, is_Some (advisory st !! k) -> is_Some (advisory st' !! k)).
Proof.
  unfold update. destruct (update_loop _ _ _ _ _ _) as [[s|] l] eqn:E; intros H; inversion H; subst.
  exact (update_loop_keeps _ _ _ _ _ _ _ _ E).
Qed.

(** A mirror answering every request with one record. *)
Lemma update_keeps_records_witness :
  let srv : server := fun _ _ => Responded (mkResponse 200 (Some [FeedVuln vuln_1234]) None) in
  exists st' log, update srv now0 2026 mirror0 store_twice = (Some st', log) /\
    is_Some (advisory st' !! "CVE-2021-0001").
Proof.
  intros srv.
  destruct (update srv now0 2026 mirror0 store_twice) as [[st'|] log] eqn:E.
  - exists st', log. split; [reflexivity|].
    apply (proj2 (update_keeps_records srv now0 2026 mirror0 store_twice st' log E)).
    eexists. reflexivity.
  - vm_compute in E. discriminate E.
Defined.

Lemma update_loop_log srv now mirror segs st log o log' :
  update_loop srv now mirror segs st log = (o, log') ->
  (forall st', o = Some st' -> log' = log ++ map (seg_url mirror) segs) /\
  (o = None -> exists pre a post, segs = pre ++ a :: post /\
                 log' = log ++ map (seg_url mirror) (pre ++ [a])).
Proof.
  revert st log. induction segs as [|a segs IH]; simpl; intros st log H.
  - inversion H; subst. split; [intros; rewrite app_nil_r; reflexivity | discriminate].
  - destruct (download srv now mirror a (meta st)) as [e|[advs m]].
    + inversion H; subst. split; [discriminate|].
      intros _. exists [], a, segs. split; reflexivity.
    + destruct (IH _ _ H) as [Hs Hn]. split.
      * intros st' Ho. rewrite (Hs st' Ho), <- app_assoc. reflexivity.
      * intros Ho. destruct (Hn Ho) as (pre & b & post & -> & ->).
        exists (a :: pre), b, post. split; [reflexivity|].
        rewrite <- app_assoc. reflexivity.
Qed.

(** X11: [NVD.update] requests the relevant segments in order, each once:
    a successful run requests all of them; a failing run requests a
    prefix of them and stops right after the failing request. *)
Theorem update_requests_in_order (srv : server) (now current : Z) (mirror : string)
    (st : Store) :
  (forall st', fst (update srv now current mirror st) = Some st' ->
     snd (update srv now current mirror st) =
       map (seg_url mirror) (relevant_archives st now current)) /\
  (fst (update srv now current mirror st) = None ->
     exists pre a post, relevant_archives st now current = pre ++ a :: post /\
       snd (update srv now current mirror st) = map (seg_url mirror) (pre ++ [a])).
Proof.
  unfold update.
  destruct (update_loop srv now mirror (relevant_archives st now current) st [])
    as [o log] eqn:E.
  destruct (update_loop_log _ _ _ _ _ _ _ _ E) as [Hs Hn].
  destruct o as [s|]; simpl; split.
  - intros st' _. apply (Hs s eq_refl).
  - discriminate.
  - discriminate.
  - intros _. apply Hn. reflexivity.
Qed.

(* ------------------------------------------------------------------ *)
(** ** [Archive.download] and the [ETag] cache of [Meta] *)

Lemma parse_fold_mono items (m : gmap string Vulnerability) k :
  is_Some (m !! k) ->
  is_Some (fold_left (fun advs it =>
             match it with
             | Some vuln => <[cve_id vuln := vuln]> advs
             | None => advs
             end) items m !! k).
Proof.
  revert m. induction items as [|[vuln|] items IH]; intros m Hm; simpl; [exact Hm| |auto].
  apply IH. destruct (decide (cve_id vuln = k)) as [<-|Hne].
  - rewrite lookup_insert_eq. eexists; reflexivity.
  - rewrite lookup_insert_ne by exact Hne. exact Hm.
Qed.

Lemma decode_items_other_error its :
  In FeedOtherError its -> decode_items its = None.
Proof.
  induction its as [|it its IH]; intros H; [contradiction|].
  destruct H as [Heq|H]; [subst it; reflexivity|].
  destruct it; simpl; rewrite ?IH by exact H; reflexivity.
Qed.

Lemma decode_items_value_errors its items :
  decode_items its = Some items ->
  forall v, In (Some v) items <-> In (FeedVuln v) its.
Proof.
  revert items. induction its as [|it its IH]; intros items H v; simpl in H.
  - injection H as <-. simpl. tauto.
  - destruct it as [w| |]; [| |discriminate];
      destruct (decode_items its) as [items'|] eqn:E; simpl in H; try discriminate;
      injection H as <-; simpl; rewrite (IH _ eq_refl v).
    + split; intros [Hx|Hx]; try (right; exact Hx); left; congruence.
    + split; intros [Hx|Hx]; try (right; exact Hx); discriminate.
Qed.

(** X12: for a 200 response, [Archive.download] either raises or stores
    the whole feed.  When the body decodes, it returns the records of
    exactly the items [Vulnerability.parse] accepts, and, the response
    carrying an [ETag], metadata whose [headers_for] sends that [ETag]
    for the same URL and what it sent before for every other URL, with
    [last_update] the current time and the pack counter unchanged.  When
    the body does not decompress or decode, or an item raises an
    exception other than [ValueError], it raises and stores nothing. *)
Theorem download_200_etag (srv : server) (now : Z) (mirror : string) (a : segment)
    (m : Meta) (r : Response) :
  srv (seg_url mirror a) (headers_for m (seg_url mirror a)) = Responded r ->
  status_code r = 200 ->
  (forall its t, body r = Some its -> resp_etag r = Some t ->
     (forall it, In it its -> it <> FeedOtherError) ->
     exists advs m', download srv now mirror a m = inr (advs, m') /\
       (forall v, (exists k, advs !! k = Some v) -> In (FeedVuln v) its) /\
       (forall v, In (FeedVuln v) its -> is_Some (advs !! cve_id v)) /\
       headers_for m' (seg_url mirror a) = Some t /\
       (forall u, u <> seg_url mirror a -> headers_for m' u = headers_for m u) /\
       last_update m' = now /\ pack_counter m' = pack_counter m) /\
  ((body r = None \/ exists its, body r = Some its /\ In FeedOtherError its) ->
     download srv now mirror a m = inl BodyError).
Proof.
  intros Hsrv Hst. unfold download. fold (seg_url mirror a). rewrite Hsrv, Hst.
  change (is_http_error 200) with false. change (Z.eqb 200 200) with true. cbv iota.
  split.
  - intros its t Hb Ht Hok. rewrite Hb.
    destruct (decode_items its) as [items|] eqn:Hd.
    2:{ exfalso. clear Hb. induction its as [|it its IH]; [discriminate|].
        destruct it as [w| |]; simpl in Hd.
        - destruct (decode_items its); [discriminate|].
          apply IH; [intros x Hx; apply Hok; right; exact Hx|reflexivity].
        - destruct (decode_items its); [discriminate|].
          apply IH; [intros x Hx; apply Hok; right; exact Hx|reflexivity].
        - exact (Hok FeedOtherError (or_introl eq_refl) eq_refl). }
    unfold update_headers_for. rewrite Ht. simpl.
    eexists. eexists. split; [reflexivity|].
    split; [|split; [|unfold headers_for; simpl; split; [apply lookup_insert_eq|]]].
    + intros v [k Hk]. apply (decode_items_value_errors its items Hd).
      destruct (parse_fold_from _ _ _ _ Hk) as [H'|H']; [|exact H'].
      rewrite lookup_empty in H'. discriminate.
    + intros v Hv. apply (decode_items_value_errors its items Hd) in Hv.
      apply in_split in Hv as (pre & post & ->).
      unfold parse. rewrite fold_left_app. simpl.
      apply parse_fold_mono. rewrite lookup_insert_eq. eexists; reflexivity.
    + split; [|split; reflexivity].
      intros u Hu. rewrite lookup_insert_ne by congruence.
      destruct (etag m); [reflexivity|]. apply lookup_empty.
  - intros [-> | (its & -> & Hin)]; [reflexivity|].
    rewrite (decode_items_other_error _ Hin). reflexivity.
Qed.

Lemma download_200_etag_witness :
  let r := mkResponse 200 (Some [FeedVuln vuln_1234; FeedValueError]) (Some "abc") in
  exists advs m', download (fun _ _ => Responded r) now0 mirror0 SegModified default_meta =
                    inr (advs, m') /\
    is_Some (advs !! "CVE-2021-1234") /\
    headers_for m' (seg_url mirror0 SegModified) = Some "abc".
Proof.
  intros r.
  destruct (proj1 (download_200_etag (fun _ _ => Responded r) now0 mirror0 SegModified
                     default_meta r eq_refl eq_refl)
              [FeedVuln vuln_1234; FeedValueError] "abc" eq_refl eq_refl)
    as (advs & m' & H1 & _ & H3 & H4 & _).
  - intros it [<-|[<-|[]]]; discriminate.
  - exists advs, m'. split; [exact H1|]. split; [|exact H4].
    exact (H3 vuln_1234 (or_introl eq_refl)).
Defined.

(* ------------------------------------------------------------------ *)
(** ** The mirror URL of [NVD.__init__] *)

Lemma rstrip_slash_snoc_slash s : rstrip_slash (s +:+ "/") = rstrip_slash s.
Proof. induction s as [|c s IH]; [reflexivity|]. simpl. now rewrite IH. Qed.

Lemma rstrip_slash_idem s : rstrip_slash (rstrip_slash s) = rstrip_slash s.
Proof.
  induction s as [|c s IH]; [reflexivity|]. simpl.
  destruct (Ascii.eqb c "/" && String.eqb (rstrip_slash s) EmptyString)%bool eqn:Hc;
    [reflexivity|].
  simpl. rewrite IH, Hc. reflexivity.
Qed.

Lemma rstrip_slash_snoc_other s c :
  c <> "/"%char -> rstrip_slash (s +:+ String c EmptyString) = s +:+ String c EmptyString.
Proof.
  intros Hc. induction s as [|x s IH]; simpl.
  - apply Ascii.eqb_neq in Hc. rewrite Hc. reflexivity.
  - rewrite IH. destruct s; simpl; rewrite andb_false_r; reflexivity.
Qed.

(** X14: [NVD.__init__] normalises the mirror URL to end in exactly one
    slash: a mirror not ending in a slash gets one, extra trailing
    slashes are dropped, and normalising twice changes nothing. *)
Theorem nvd_mirror_normal (m : string) (c : ascii) :
  (c <> "/"%char -> nvd_mirror (m +:+ String c EmptyString) = m +:+ String c "/") /\
  nvd_mirror (m +:+ "/") = nvd_mirror m /\
  nvd_mirror (nvd_mirror m) = nvd_mirror m.
Proof.
  unfold nvd_mirror. split; [|split].
  - intros Hc. rewrite rstrip_slash_snoc_other by exact Hc.
    rewrite str_app_assoc. reflexivity.
  - rewrite rstrip_slash_snoc_slash. reflexivity.
  - rewrite rstrip_slash_snoc_slash, rstrip_slash_idem. reflexivity.
Qed.

(* ------------------------------------------------------------------ *)
(** ** One URL per segment *)

Lemma str_app_inv_l p a b : p +:+ a = p +:+ b -> a = b.
Proof. induction p as [|c p IH]; simpl; [auto | intros H; inversion H; auto]. Qed.

Lemma str_app_inv_r s a b : a +:+ s = b +:+ s -> a = b.
Proof.
  revert b. induction a as [|x a IH]; intros [|y b] H; simpl in H; [reflexivity | | |].
  - exfalso. apply (f_equal String.length) in H. simpl in H. rewrite str_length_app in H. lia.
  - exfalso. apply (f_equal String.length) in H. simpl in H. rewrite str_length_app in H. lia.
  - inversion H as [[Hxy Hab]]. subst y. f_equal. apply IH. exact Hab.
Qed.

Lemma pretty_N_go_digits (x : N) s :
  all_chars is_digit s = true -> all_chars is_digit (pretty_N_go x s) = true.
Proof.
  revert s. induction (N.lt_wf_0 x) as [x _ IH]; intros s Hs.
  destruct (decide (x = 0%N)) as [->|Hx]; [rewrite pretty_N_go_0; exact Hs|].
  rewrite pretty_N_go_step by lia. apply IH; [apply N.div_lt; lia|].
  simpl. rewrite Hs, andb_true_r. unfold pretty_N_char. repeat case_match; reflexivity.
Qed.

Lemma pretty_N_digits (x : N) : all_chars is_digit (pretty x) = true.
Proof.
  unfold pretty, pretty_N. case_decide; [reflexivity|]. apply pretty_N_go_digits. reflexivity.
Qed.

Lemma pretty_Z_not_modified (y : Z) : pretty y <> "modified".
Proof.
  unfold pretty, pretty_Z. destruct y as [|p|p]; [discriminate | | discriminate].
  intros H. pose proof (pretty_N_digits (Npos p)) as Hd.
  change (pretty (Npos p)) with (pretty p) in Hd. rewrite H in Hd. discriminate.
Qed.

(** X15: distinct feed segments are downloaded from distinct URLs, so the
    [ETag] kept for one segment's URL is never sent for another. *)
Theorem seg_url_inj (mirror : string) (a b : segment) :
  seg_url mirror a = seg_url mirror b -> a = b.
Proof.
  unfold seg_url, download_uri. intros H.
  apply str_app_inv_l in H. change ("nvdcve-1.1-" +:+ ?x) with (String "n" (String "v"
    (String "d" (String "c" (String "v" (String "e" (String "-" (String "1" (String "."
    (String "1" (String "-" EmptyString)))))))))) +:+ x) in H.
  apply str_app_inv_l in H. apply str_app_inv_r in H.
  destruct a as [y|], b as [z|]; simpl in H.
  - f_equal. exact (inj pretty _ _ H).
  - exfalso. exact (pretty_Z_not_modified y H).
  - exfalso. exact (pretty_Z_not_modified z (eq_sym H)).
  - reflexivity.
Qed.

Lemma seg_url_inj_witness : SegYear 2021 = SegYear 2021.
Proof. apply (seg_url_inj mirror0 (SegYear 2021) (SegYear 2021)). reflexivity. Defined.

(* ------------------------------------------------------------------ *)
(** ** [NVD.relevant_archives] *)

(** X16: [NVD.relevant_archives] never lists a segment twice, ends with
    the [modified] feed whenever it lists anything, and requests no
    fewer segments when the last update is older. *)
Theorem relevant_archives_shape (st st' : Store) (now current : Z) :
  NoDup (relevant_archives st now current) /\
  (relevant_archives st now current <> [] ->
     last (relevant_archives st now current) = Some SegModified) /\
  (last_update (meta st') <= last_update (meta st) ->
     incl (relevant_archives st now current) (relevant_archives st' now current)).
Proof.
  unfold relevant_archives.
  assert (Hnd : NoDup (available_archives current ++ [SegModified])).
  { unfold available_archives. simpl.
    repeat (apply NoDup_cons; split; [|]); [..|apply NoDup_nil_2];
      intros Hin; repeat (apply elem_of_cons in Hin as [Hin|Hin]);
      try (inversion Hin; lia); try (apply elem_of_nil in Hin; exact Hin). }
  split; [|split].
  - destruct (Z.ltb _ _); [apply NoDup_nil_2|].
    destruct (Z.ltb _ _); [apply NoDup_singleton | exact Hnd].
  - destruct (Z.ltb _ _); [congruence|].
    destruct (Z.ltb _ _); intros _; [reflexivity|].
    unfold available_archives. reflexivity.
  - intros Hle.
    destruct (Z.ltb_spec (now - 3600) (last_update (meta st))) as [H1|H1];
      [intros x []|].
    destruct (Z.ltb_spec (now - 3600) (last_update (meta st'))) as [H1'|H1']; [lia|].
    destruct (Z.ltb_spec (now - 604800) (last_update (meta st))) as [H2|H2];
    destruct (Z.ltb_spec (now - 604800) (last_update (meta st'))) as [H2'|H2']; try lia.
    + apply incl_refl.
    + intros x [<-|[]]. apply in_or_app. right. left. reflexivity.
    + apply incl_refl.
Qed.

